(** * PitchToMidi: the loudest-band scan and the nearest-MIDI-note finder

    A shallow embedding of [setup], [loop] and [findMidiNoteFromPitches]
    of ArduinoSound_Examples/PitchToMidi/PitchToMidi.ino.

    Modelling conventions.
    - C++ [int] values are [Z].  The only integer arithmetic of the sketch
      is the loop counter (bounded by 127 and by 64), so no wrap-around
      occurs.
    - C++ [float] values are IEEE 754 binary32 numbers, held as the
      rationals [Q] they denote.  Whatever the finder computes in float
      (converting an int bound, subtracting) is rounded to the nearest
      binary32 value, ties to even, by [Binary32.round32]; the table's
      entries are stored rounded in the same way.  Storing a float in an
      int truncates toward zero.  Results too large for a float or for an
      int, where the sketch has no defined behaviour, are not modelled.
    - The band edges of [setup] and [loop] are computed on small integers,
      where float arithmetic is exact.
    - [Serial.println] inside the finder is modelled as an output list
      carried in the scan state. *)

From Stdlib Require Import ZArith QArith Qabs Qround Qpower List Bool Lia Lqa.
From Stdlib Require String SpecFloat.
Import ListNotations.

Open Scope Z_scope.

(** ** Conversions between [int] and [float] *)

(** Storing a float in an int truncates toward zero. *)
Definition float_to_int (q : Q) : Z := Z.quot (Qnum q) (Z.pos (Qden q)).

(** The value of an int.  It is the int converted to float whenever the
    int has magnitude at most 2^24, as every int of [setup] and [loop]
    has; [Binary32.of_int] is the conversion in general. *)
Definition int_to_float (z : Z) : Q := inject_Z z.

(** ** Binary32 rounding *)

(** IEEE 754 binary32: a significand of 24 bits, exponents down to the
    subnormal spacing 2^-149, round to nearest with ties to even.
    Overflow to infinity is left out: the only float the sketch computes
    is a difference it stores in an int at once, which has no defined
    value when the float is that large. *)
Module Binary32.

(** 2^k *)
Definition pow2 (k : Z) : Q := (2 ^ k)%Q.

(** The nearest integer, ties to the even one. *)
Definition rne (x : Q) : Z :=
  let f := Qfloor x in
  match (x - inject_Z f ?= 1 # 2)%Q with
  | Lt => f
  | Eq => if Z.even f then f else f + 1
  | Gt => f + 1
  end.

(** The binary exponent of a positive rational: the [e] with
    2^e <= a < 2^(e+1). *)
Definition ilog2 (a : Q) : Z :=
  let e0 := Z.log2 (Qnum a) - Z.log2 (Z.pos (Qden a)) in
  if Qle_bool (pow2 e0) a then e0 else e0 - 1.

(** The spacing of subnormal numbers is 2^-149. *)
Definition emin : Z := -149.

(** The exponent of the unit in the last place of a 24-bit significand. *)
Definition ulp_exp (a : Q) : Z := Z.max (ilog2 a - 23) emin.

(** Rounding a positive rational to 24 significant bits. *)
Definition round_pos (a : Q) : Q :=
  (inject_Z (rne (a / pow2 (ulp_exp a))) * pow2 (ulp_exp a))%Q.

(** Round to nearest, ties to even. *)
Definition round32 (q : Q) : Q :=
  match Qnum q with
  | Z0 => 0%Q
  | Zpos _ => round_pos q
  | Zneg _ => (- round_pos (- q))%Q
  end.

(** An int converted to float. *)
Definition of_int (z : Z) : Q := round32 (int_to_float z).

(** The rational a finite number of the Standard Library's specification
    of IEEE 754 arithmetic denotes. *)
Definition of_spec (f : SpecFloat.spec_float) : Q :=
  match f with
  | SpecFloat.S754_finite s m e =>
      ((if s then - 1 else 1) * inject_Z (Z.pos m) * pow2 e)%Q
  | _ => 0%Q
  end.

(** The integer [m] times 2^e as a binary32 number of that
    specification (24 bits of precision, exponents below 128). *)
Definition spec32 (m e : Z) : SpecFloat.spec_float :=
  SpecFloat.binary_normalize 24 128 m e false.

(** A value is a float when it is a significand below 2^24 in magnitude
    times a power of two no smaller than 2^-149. *)
Definition representable (q : Q) : Prop :=
  exists m k : Z, emin <= k /\ Z.abs m < 2 ^ 24 /\ (q == inject_Z m * pow2 k)%Q.

End Binary32.

(** ** Bounded [for] loops *)

(** [for (int x = 0; x < n; x++) body], as a state transformer: the body
    runs for x = 0, 1, ..., n-1 in that order. *)
Fixpoint for_upto {S : Type} (n : nat) (body : nat -> S -> S) (s : S) : S :=
  match n with
  | O => s
  | Datatypes.S k => body k (for_upto k body s)
  end.

(** The same loop as a machine that tests [x < bound] before every
    iteration; [fuel] bounds the number of tests.  It returns the final
    state with the number of times the body ran. *)
Fixpoint for_machine {S : Type} (fuel : nat) (bound : nat)
    (body : nat -> S -> S) (x : nat) (s : S) (ran : nat) : option (S * nat) :=
  match fuel with
  | O => None
  | Datatypes.S fuel' =>
      if (x <? bound)%nat
      then for_machine fuel' bound body (Datatypes.S x) (body x s) (Datatypes.S ran)
      else Some (s, ran)
  end.

(** ** The finder *)

Module Finder.

(** Modelled from the spec: the table [pitchFrequency] of
    pitchToFrequency.h is not part of the sources; the spec describes it as
    a fixed sequence of 127 real frequencies indexed 0..126.  It is a
    parameter of every definition below: the list of the values of the
    array's initialiser. *)
Definition table := list Q.

(** [pitchFrequency[x]]: the float the array holds at [x].  An array of
    float holds floats, so the initialiser's value is rounded (and left
    as it is when it is a float already); the loop only reads indices
    0..126. *)
Definition pitchAt (pitchFrequency : table) (x : nat) : Q :=
  Binary32.round32 (nth x pitchFrequency 0%Q).

(** Number of table entries the loop visits. *)
Definition noteCount : nat := 127.

(** The locals of [findMidiNoteFromPitches], and what it has printed. *)
Record scan_state : Type := mkScan {
  lastDiff : Z;
  desiredMidiNote : Z;
  serialOut : list Q
}.

(** [int lastDiff = 32000; int desiredMidiNote = -1;] *)
Definition initialDiff : Z := 32000.

Definition scan_init : scan_state :=
  {| lastDiff := initialDiff; desiredMidiNote := -1; serialOut := [] |}.

(** The same start when the serial port already carries [printed]: the
    locals are initialised afresh in every call, the port is not. *)
Definition scan_after (printed : list Q) : scan_state :=
  {| lastDiff := initialDiff; desiredMidiNote := -1; serialOut := printed |}.

(** [pitchFrequency[x] >= lowPitch && pitchFrequency[x] <= highPitch]:
    each int bound is converted to float for its comparison. *)
Definition inBand (lowPitch highPitch : Z) (p : Q) : bool :=
  Qle_bool (Binary32.of_int lowPitch) p && Qle_bool p (Binary32.of_int highPitch).

(** [int diff = abs(lowPitch - pitchFrequency[x]);]: [lowPitch] is
    converted to float, the subtraction is done in float, and the
    absolute value is truncated when stored in [diff]. *)
Definition diffTo (lowPitch : Z) (p : Q) : Z :=
  float_to_int (Qabs (Binary32.round32 (Binary32.of_int lowPitch - p))).

Definition diffAt (pitchFrequency : table) (lowPitch : Z) (x : nat) : Z :=
  diffTo lowPitch (pitchAt pitchFrequency x).

(** One iteration of the loop, lines 125-135. *)
Definition scan_body (pitchFrequency : table) (lowPitch highPitch : Z)
    (x : nat) (st : scan_state) : scan_state :=
  let p := pitchAt pitchFrequency x in
  let out := if inBand lowPitch highPitch p
             then serialOut st ++ [p] else serialOut st in
  let diff := diffTo lowPitch p in
  {| lastDiff := diff;
     desiredMidiNote := if diff <? lastDiff st
                        then Z.of_nat x else desiredMidiNote st;
     serialOut := out |}.

(** The state after the first [k] iterations. *)
Definition scan_prefix (pitchFrequency : table) (lowPitch highPitch : Z)
    (k : nat) : scan_state :=
  for_upto k (scan_body pitchFrequency lowPitch highPitch) scan_init.

(** The whole function: the returned note and the lines printed. *)
Definition findMidiNoteFromPitches (pitchFrequency : table)
    (lowPitch highPitch : Z) : Z * list Q :=
  let st := scan_prefix pitchFrequency lowPitch highPitch noteCount in
  (desiredMidiNote st, serialOut st).

(** The returned note alone. *)
Definition midiNote (pitchFrequency : table) (lowPitch highPitch : Z) : Z :=
  fst (findMidiNoteFromPitches pitchFrequency lowPitch highPitch).

(** The value [lastDiff] holds when iteration [x] starts. *)
Definition prevDiff (pitchFrequency : table) (lowPitch : Z) (x : nat) : Z :=
  match x with
  | O => initialDiff
  | Datatypes.S k => diffAt pitchFrequency lowPitch k
  end.

(** Iteration [x] assigns [desiredMidiNote = x]. *)
Definition recorded (pitchFrequency : table) (lowPitch : Z) (x : nat) : bool :=
  diffAt pitchFrequency lowPitch x <? prevDiff pitchFrequency lowPitch x.

(** The exact distance the spec speaks of, without rounding or
    truncation. *)
Definition distance (pitchFrequency : table) (lowBound : Q) (x : nat) : Q :=
  Qabs (lowBound - pitchAt pitchFrequency x).

(** Non-decreasing in index order, over the 127 entries. *)
Definition ascending (pitchFrequency : table) : Prop :=
  forall i j : nat, (i <= j < noteCount)%nat ->
    (pitchAt pitchFrequency i <= pitchAt pitchFrequency j)%Q.

(** Strictly increasing in index order, decided on the 126 adjacent pairs. *)
Definition strictly_ascendingb (pitchFrequency : table) : bool :=
  forallb (fun i => negb (Qle_bool (pitchAt pitchFrequency (Datatypes.S i))
                                    (pitchAt pitchFrequency i)))
          (seq 0 (noteCount - 1)).

End Finder.

(** ** The finder as the spec words it *)

Module SpecFinder.

(** The running best difference starts above every real difference. *)
Record best_state : Type := mkBest {
  best : option Q;
  candidate : Z
}.

(** "If diff is strictly less than the running best, record this index as
    the current best candidate and update the running best to diff." *)
Definition spec_body (tbl : Finder.table) (lowBound : Q)
    (x : nat) (st : best_state) : best_state :=
  let diff := Qabs (lowBound - Finder.pitchAt tbl x) in
  match best st with
  | None => {| best := Some diff; candidate := Z.of_nat x |}
  | Some b =>
      if Qle_bool b diff then st
      else {| best := Some diff; candidate := Z.of_nat x |}
  end.

(** "iterate the table by increasing index from 0 to 126 ... return the
    last recorded best candidate index, or the sentinel -1". *)
Definition spec_findNearestIndex (tbl : Finder.table) (lowBound : Q) : Z :=
  candidate (for_upto Finder.noteCount (spec_body tbl lowBound)
                      {| best := None; candidate := -1 |}).

End SpecFinder.

(** ** The loudest-band scan of [loop] *)

Module Loop.

Definition sampleRate : Z := 8400.
Definition fftSize : Z := 128.
Definition spectrumSize : nat := Z.to_nat (fftSize / 2).
Definition threshold : Z := 150000.

(** [(b * float(sampleRate)) / fftSize] *)
Definition bandLow (b : nat) : Q :=
  (int_to_float (Z.of_nat b) * int_to_float sampleRate / int_to_float fftSize)%Q.

(** [((b + 1) * float(sampleRate)) / fftSize] *)
Definition bandHigh (b : nat) : Q :=
  (int_to_float (Z.of_nat b + 1) * int_to_float sampleRate / int_to_float fftSize)%Q.

Record loud_state : Type := mkLoud {
  loudestSample : Z;
  freqLow : Q;
  freqHigh : Q
}.

Definition loud_init : loud_state :=
  {| loudestSample := 0; freqLow := 0%Q; freqHigh := 0%Q |}.

(** Lines 88-94: [if (spectrum[b] >= loudestSample) { ... }] *)
Definition loud_body (spectrum : list Z) (b : nat) (st : loud_state) : loud_state :=
  let s := nth b spectrum 0 in
  if s >=? loudestSample st
  then {| loudestSample := s; freqLow := bandLow b; freqHigh := bandHigh b |}
  else st.

(** The state after the first [k] bands. *)
Definition loud_prefix (spectrum : list Z) (k : nat) : loud_state :=
  for_upto k (loud_body spectrum) loud_init.

Definition loudest_scan (spectrum : list Z) : loud_state :=
  loud_prefix spectrum spectrumSize.

(** Line 108: [findMidiNoteFromPitches(freqLow, freqHigh)] with float
    arguments for the int parameters [lowPitch] and [highPitch]. *)
Definition call_finder (pitchFrequency : Finder.table) (freqLow freqHigh : Q) : Z :=
  Finder.midiNote pitchFrequency (float_to_int freqLow) (float_to_int freqHigh).

(** What one pass of [loop] reports once a spectrum has been read: nothing
    unless the loudest sample exceeds the threshold, else the band edges,
    the amplitude and the finder's answer for these edges. *)
Definition loop_report (pitchFrequency : Finder.table) (spectrum : list Z)
    : option (Q * Q * Z * Z) :=
  let st := loudest_scan spectrum in
  if loudestSample st >? threshold
  then Some (freqLow st, freqHigh st, loudestSample st,
             call_finder pitchFrequency (freqLow st) (freqHigh st))
  else None.

End Loop.

(** ** [setup] and one pass of [loop] *)

Module Sketch.
Import Stdlib.Strings.String.

(** What the sketch writes to the serial port, line by line. *)
Inductive serial_line : Type :=
| Message (text : string)
| BandLine (low high : Q)
| BlankLine.

(** [setup] either returns or stays in one of its empty [while] loops;
    either way it has printed some lines by then. *)
Inductive setup_outcome : Type :=
| Returns (printed : list serial_line)
| HangsForever (printed : list serial_line).

(** Lines 63-71: one line per band, [freqLow " - " freqHigh]. *)
Definition print_bands : list serial_line :=
  for_upto Loop.spectrumSize
    (fun b out => out ++ [BandLine (Loop.bandLow b) (Loop.bandHigh b)]) [].

(** Lines 45-74.  [serialUp]: the serial port opens, so [while (!Serial)]
    ends; [i2sBegins]: [AudioInI2S.begin(sampleRate, 32)] succeeds;
    [analyzerAccepts]: [fftAnalyzer.input(AudioInI2S)] succeeds. *)
Definition setup (serialUp i2sBegins analyzerAccepts : bool) : setup_outcome :=
  if negb serialUp then HangsForever []
  else if negb i2sBegins
  then HangsForever [Message "Failed to initialize I2S input"%string]
  else if negb analyzerAccepts
  then HangsForever [Message "Failed to set FFT analyzer input"%string]
  else Returns ([Message "Frequency bands: "%string] ++ print_bands ++ [BlankLine]).

(** Lines 76-112: one pass of [loop]; [available] is
    [fftAnalyzer.available()] and [analysis] what [fftAnalyzer.read]
    stores in [spectrum]. *)
Definition loop (available : bool) (pitchFrequency : Finder.table)
    (analysis : list Z) : option (Q * Q * Z * Z) :=
  if available then Loop.loop_report pitchFrequency analysis else None.

End Sketch.

(** ** Concrete tables used in examples *)

Module Tables.

(** The spec's scenario table 0, 100, 200, ..., 12600. *)
Definition stepTable : Finder.table :=
  map (fun x => inject_Z (100 * Z.of_nat x)) (seq 0 127).

(** 0, 1/2, 1, 3/2, ..., 63: strictly ascending, adjacent entries 1/2 apart. *)
Definition halfTable : Finder.table :=
  map (fun x => Z.of_nat x # 2) (seq 0 127).

(** 0, 100, 50, 50, ..., 50. *)
Definition bumpTable : Finder.table :=
  [0 # 1; 100 # 1]%Q ++ repeat (50 # 1)%Q 125.

(** 3/4, 5/4, 3, 4, ..., 127: strictly ascending. *)
Definition nearTable : Finder.table :=
  [3 # 4; 5 # 4]%Q ++ map (fun x => inject_Z (Z.of_nat x + 1)) (seq 2 125).

(** 0, 64, 128, ..., 7936, 8000, then 8001: strictly ascending integers,
    the last two entries 1 apart. *)
Definition closeTopTable : Finder.table :=
  map (fun x => inject_Z (64 * Z.of_nat x)) (seq 0 126) ++ [inject_Z 8001].

(** 16777218, 16777220, ..., 16777470: strictly ascending, every entry a
    float (an even integer above 2^24). *)
Definition tieTable : Finder.table :=
  map (fun x => inject_Z (16777218 + 2 * Z.of_nat x)) (seq 0 127).

(** 0, 16777216, 33554432, ...: multiples of 2^24. *)
Definition wideTable : Finder.table :=
  map (fun x => inject_Z (16777216 * Z.of_nat x)) (seq 0 127).

(** 2^-20, 1/2, 1, 3/2, ...: strictly ascending. *)
Definition tinyFirstTable : Finder.table :=
  (1 # 1048576)%Q :: map (fun x => Z.of_nat x # 2) (seq 1 126).

(** A spectrum whose maximum 200000 is carried by bands 3 and 10. *)
Definition tiedSpectrum : list Z :=
  repeat 7 3 ++ [200000] ++ repeat 7 6 ++ [200000] ++ repeat 7 53.

End Tables.

(** * Lemmas *)

(** ** Loops *)

Lemma for_upto_S {S : Type} (n : nat) (body : nat -> S -> S) (s : S) :
  for_upto (Datatypes.S n) body s = body n (for_upto n body s).
Proof. reflexivity. Qed.

(** The machine started at [x], in the state the first [x] iterations
    produce, stops at the bound having run the remaining iterations. *)
Lemma for_machine_upto {S : Type} (bound : nat) (body : nat -> S -> S) (s0 : S) :
  forall (fuel x ran : nat),
    (x <= bound)%nat -> (bound - x < fuel)%nat ->
    for_machine fuel bound body x (for_upto x body s0) ran
    = Some (for_upto bound body s0, (ran + (bound - x))%nat).
Proof.
  induction fuel as [|fuel IH]; intros x ran Hle Hfuel.
  - lia.
  - cbn [for_machine].
    destruct (Nat.ltb_spec x bound) as [Hlt|Hge].
    + rewrite <- for_upto_S.
      rewrite IH by lia.
      do 2 f_equal. lia.
    + assert (x = bound) by lia. subst x.
      do 2 f_equal. lia.
Qed.

(** ** Truncation *)

Lemma float_to_int_nonneg (q : Q) :
  (0 <= q)%Q -> float_to_int q = Qfloor q.
Proof.
  destruct q as [n d]. unfold Qle, float_to_int, Qfloor. cbn.
  intros H. apply Z.quot_div_nonneg; lia.
Qed.

Lemma float_to_int_inject (z : Z) : float_to_int (int_to_float z) = z.
Proof. unfold float_to_int, int_to_float. cbn. apply Z.quot_1_r. Qed.

(** ** Binary32 rounding *)

Module Binary32Facts.
Import Binary32.

(** [round32] against the Standard Library's specification of binary32:
    rounding integers times powers of two (normal, subnormal, ties both
    ways, negative), and the subtractions and conversions the examples
    below rely on. *)
Example round32_agrees_with_SpecFloat :
  forallb (fun '(m, e) =>
             Qeq_bool (of_spec (spec32 m e)) (round32 (inject_Z m * pow2 e)))
          [(999991999, 0); (999992001, 0); (16777217, 0); (16777219, 0);
           (-16777219, 0); (2000000000, 0); (1999987400, 0); (1, -150);
           (3, -150); (5, -151); (33554431, -20); (8675309, -30);
           (4334813183, -20); (-123456789, 7); (1, 0); (0, 0)]
  = true
  /\ forallb (fun '(a, b) =>
                Qeq_bool
                  (of_spec (SpecFloat.SFsub 24 128 (spec32 a 0) (spec32 b 0)))
                  (round32 (round32 (inject_Z a) - round32 (inject_Z b))))
             [(1000000000, 8000); (1000000000, 8001); (2000000000, 12500);
              (2000000000, 12600); (16777219, 16777218); (4134, 0);
              (-32000, 12600); (250, 300)]
     = true.
Proof. split; vm_compute; reflexivity. Qed.

(** *** Rounding to the nearest integer *)

Lemma floor_le_inject (x : Q) : (inject_Z (Qfloor x) <= x)%Q.
Proof. apply Qfloor_le. Qed.

Lemma lt_floor_succ (x : Q) : (x < inject_Z (Qfloor x) + 1)%Q.
Proof. pose proof (Qlt_floor x) as H. rewrite inject_Z_plus in H. exact H. Qed.

Lemma rne_floor (x : Q) : Qfloor x <= rne x <= Qfloor x + 1.
Proof.
  unfold rne. destruct (_ ?= _)%Q; [destruct (Z.even _)| |]; lia.
Qed.

Lemma rne_near (x : Q) :
  (inject_Z (rne x) - (1 # 2) <= x <= inject_Z (rne x) + (1 # 2))%Q.
Proof.
  unfold rne.
  pose proof (floor_le_inject x) as Hlo. pose proof (lt_floor_succ x) as Hhi.
  destruct (Qcompare_spec (x - inject_Z (Qfloor x)) (1 # 2)) as [He|Hl|Hg].
  - destruct (Z.even (Qfloor x)).
    + split; lra.
    + rewrite inject_Z_plus. change (inject_Z 1) with 1%Q. split; lra.
  - split; lra.
  - rewrite inject_Z_plus. change (inject_Z 1) with 1%Q. split; lra.
Qed.

#[global] Instance rne_comp : Proper (Qeq ==> eq) rne.
Proof.
  intros x y Hxy. unfold rne.
  rewrite (Qfloor_comp x y Hxy).
  assert (H : (x - inject_Z (Qfloor y) == y - inject_Z (Qfloor y))%Q)
    by (rewrite Hxy; reflexivity).
  rewrite (Qcompare_comp _ _ H (1 # 2) (1 # 2) (Qeq_refl _)).
  reflexivity.
Qed.

Lemma rne_inject (n : Z) : rne (inject_Z n) = n.
Proof.
  unfold rne. rewrite Qfloor_Z.
  assert (H : (inject_Z n - inject_Z n ?= 1 # 2)%Q = Lt).
  { apply -> Qlt_alt. setoid_replace (inject_Z n - inject_Z n)%Q with 0%Q by ring.
    reflexivity. }
  rewrite H. reflexivity.
Qed.

Lemma rne_mono (x y : Q) : (x <= y)%Q -> rne x <= rne y.
Proof.
  intros Hxy.
  pose proof (Qfloor_resp_le x y Hxy) as Hf.
  destruct (Z.eq_dec (Qfloor x) (Qfloor y)) as [Heq|Hne].
  - unfold rne. rewrite <- Heq.
    destruct (Qcompare_spec (x - inject_Z (Qfloor x)) (1 # 2)) as [He|Hl|Hg];
    destruct (Qcompare_spec (y - inject_Z (Qfloor x)) (1 # 2)) as [He'|Hl'|Hg'];
      try (destruct (Z.even (Qfloor x))); try lia; exfalso; lra.
  - pose proof (rne_floor x). pose proof (rne_floor y). lia.
Qed.

Lemma rne_nonneg (x : Q) : (0 <= x)%Q -> 0 <= rne x.
Proof.
  intros Hx. rewrite <- (rne_inject 0). apply rne_mono. exact Hx.
Qed.


(** *** Powers of two *)

Lemma pow2_pos (k : Z) : (0 < pow2 k)%Q.
Proof. apply Qpower_0_lt. reflexivity. Qed.

Lemma pow2_add (a b : Z) : (pow2 (a + b) == pow2 a * pow2 b)%Q.
Proof. apply Qpower_plus. discriminate. Qed.

Lemma pow2_le (a b : Z) : a <= b -> (pow2 a <= pow2 b)%Q.
Proof. intros H. apply Qpower_le_compat_l; [exact H | discriminate]. Qed.

Lemma pow2_lt (a b : Z) : a < b -> (pow2 a < pow2 b)%Q.
Proof. intros H. apply Qpower_lt_compat_l; [exact H | reflexivity]. Qed.

Lemma pow2_lt_inv (a b : Z) : (pow2 a < pow2 b)%Q -> a < b.
Proof. intros H. apply (Qpower_lt_compat_l_inv 2); [exact H | reflexivity]. Qed.

Lemma pow2_inject (k : Z) : 0 <= k -> (pow2 k == inject_Z (2 ^ k))%Q.
Proof. intros H. unfold pow2. rewrite (Zpower_Qpower 2 k H). reflexivity. Qed.

Lemma pow2_cancel (k : Z) : (pow2 k * pow2 (- k) == 1)%Q.
Proof. rewrite <- pow2_add. replace (k + - k) with 0 by lia. reflexivity. Qed.

Lemma div_pow2 (a : Q) (k : Z) : (a / pow2 k == a * pow2 (- k))%Q.
Proof.
  unfold Qdiv, pow2. rewrite Qpower_opp. reflexivity.
Qed.

(** *** The binary exponent of a positive rational *)

Lemma Qmake_as_quotient (a : Q) :
  (a * inject_Z (Z.pos (Qden a)) == inject_Z (Qnum a))%Q.
Proof.
  destruct a as [n d]. unfold Qeq, Qmult, inject_Z. simpl.
  rewrite Pos.mul_1_r. ring.
Qed.

Lemma ilog2_spec (a : Q) :
  (0 < a)%Q -> (pow2 (ilog2 a) <= a < pow2 (ilog2 a + 1))%Q.
Proof.
  intros Ha.
  assert (Hn : 0 < Qnum a).
  { destruct a as [n d]. unfold Qlt in Ha. cbn in *. lia. }
  pose proof (Z.log2_spec (Qnum a) Hn) as [Hn1 Hn2].
  pose proof (Z.log2_spec (Z.pos (Qden a)) (Pos2Z.is_pos _)) as [Hd1 Hd2].
  pose proof (Z.log2_nonneg (Qnum a)) as Hln.
  pose proof (Z.log2_nonneg (Z.pos (Qden a))) as Hld.
  set (ln := Z.log2 (Qnum a)) in *. set (ld := Z.log2 (Z.pos (Qden a))) in *.
  pose proof (Qmake_as_quotient a) as Hq.
  set (n := inject_Z (Qnum a)) in *. set (d := inject_Z (Z.pos (Qden a))) in *.
  assert (Hn1' : (pow2 ln <= n)%Q).
  { rewrite (pow2_inject ln Hln). unfold n. rewrite <- Zle_Qle. exact Hn1. }
  assert (Hn2' : (n < pow2 (ln + 1))%Q).
  { rewrite (pow2_inject (ln + 1)) by lia. unfold n. rewrite <- Zlt_Qlt.
    exact Hn2. }
  assert (Hd1' : (pow2 ld <= d)%Q).
  { rewrite (pow2_inject ld Hld). unfold d. rewrite <- Zle_Qle. exact Hd1. }
  assert (Hd2' : (d < pow2 (ld + 1))%Q).
  { rewrite (pow2_inject (ld + 1)) by lia. unfold d. rewrite <- Zlt_Qlt.
    exact Hd2. }
  assert (Hd0 : (0 < d)%Q) by (pose proof (pow2_pos ld); lra).
  unfold ilog2. fold ln ld.
  destruct (Qle_bool (pow2 (ln - ld)) a) eqn:Hcmp.
  - apply Qle_bool_iff in Hcmp. split; [exact Hcmp|].
    apply Qnot_le_lt. intros Hge.
    assert (Hprod : (pow2 (ln - ld + 1) * pow2 ld <= a * d)%Q).
    { apply Qle_trans with (a * pow2 ld)%Q.
      - apply Qmult_le_compat_r; [exact Hge | apply Qlt_le_weak, pow2_pos].
      - apply Qmult_le_l; [exact Ha | exact Hd1']. }
    rewrite <- pow2_add in Hprod.
    replace (ln - ld + 1 + ld) with (ln + 1) in Hprod by lia.
    lra.
  - assert (Hlt : (a < pow2 (ln - ld))%Q).
    { apply Qnot_le_lt. intros Hle. apply Qle_bool_iff in Hle. congruence. }
    split.
    + apply Qnot_lt_le. intros Hlow.
      assert (Hprod : (a * d < pow2 (ln - ld - 1) * pow2 (ld + 1))%Q).
      { apply Qle_lt_trans with (a * pow2 (ld + 1))%Q.
        - apply Qmult_le_l; [exact Ha | apply Qlt_le_weak, Hd2'].
        - apply Qmult_lt_compat_r; [apply pow2_pos | exact Hlow]. }
      rewrite <- pow2_add in Hprod.
      replace (ln - ld - 1 + (ld + 1)) with ln in Hprod by lia.
      lra.
    + replace (ln - ld - 1 + 1) with (ln - ld) by lia. exact Hlt.
Qed.

Lemma ilog2_unique (a : Q) (e : Z) :
  (pow2 e <= a < pow2 (e + 1))%Q -> ilog2 a = e.
Proof.
  intros [Hlo Hhi].
  assert (Ha : (0 < a)%Q) by (pose proof (pow2_pos e); lra).
  destruct (ilog2_spec a Ha) as [Hlo' Hhi'].
  assert (ilog2 a < e + 1).
  { apply pow2_lt_inv. lra. }
  assert (e < ilog2 a + 1).
  { apply pow2_lt_inv. lra. }
  lia.
Qed.

Lemma ilog2_comp_pos (a b : Q) :
  (0 < a)%Q -> (a == b)%Q -> ilog2 a = ilog2 b.
Proof.
  intros Ha Hab. symmetry. apply ilog2_unique.
  rewrite <- Hab. apply ilog2_spec, Ha.
Qed.

Lemma ilog2_mono (a b : Q) : (0 < a)%Q -> (a <= b)%Q -> ilog2 a <= ilog2 b.
Proof.
  intros Ha Hab.
  destruct (ilog2_spec a Ha) as [Hlo _].
  destruct (ilog2_spec b ltac:(lra)) as [_ Hhi].
  assert (ilog2 a < ilog2 b + 1) by (apply pow2_lt_inv; lra).
  lia.
Qed.


(** *** Rounding a positive rational *)

Lemma ulp_exp_bounds (a : Q) : emin <= ulp_exp a /\ ilog2 a - 23 <= ulp_exp a.
Proof. unfold ulp_exp. lia. Qed.

Lemma scale_le (x y : Q) (k : Z) : (x <= y)%Q -> (x / pow2 k <= y / pow2 k)%Q.
Proof.
  intros H. rewrite !div_pow2.
  apply Qmult_le_compat_r; [exact H | apply Qlt_le_weak, pow2_pos].
Qed.

Lemma scale_pow2 (e k : Z) : (pow2 e / pow2 k == pow2 (e - k))%Q.
Proof. rewrite div_pow2, <- pow2_add. reflexivity. Qed.

Lemma scale_back (x : Q) (k : Z) : (x / pow2 k * pow2 k == x)%Q.
Proof.
  rewrite div_pow2, <- Qmult_assoc, (Qmult_comm (pow2 (- k))), pow2_cancel.
  ring.
Qed.

Lemma round_pos_nonneg (a : Q) : (0 <= a)%Q -> (0 <= round_pos a)%Q.
Proof.
  intros Ha. unfold round_pos.
  apply Qmult_le_0_compat; [|apply Qlt_le_weak, pow2_pos].
  change 0%Q with (inject_Z 0). rewrite <- Zle_Qle.
  apply rne_nonneg. rewrite div_pow2.
  apply Qmult_le_0_compat; [exact Ha | apply Qlt_le_weak, pow2_pos].
Qed.

Lemma round_pos_comp (a b : Q) :
  (0 < a)%Q -> (a == b)%Q -> (round_pos a == round_pos b)%Q.
Proof.
  intros Ha Hab. unfold round_pos, ulp_exp.
  rewrite (ilog2_comp_pos a b Ha Hab).
  assert (H : (a / pow2 (Z.max (ilog2 b - 23) emin)
               == b / pow2 (Z.max (ilog2 b - 23) emin))%Q)
    by (rewrite Hab; reflexivity).
  rewrite (rne_comp _ _ H). reflexivity.
Qed.

(** The scaled significand stays at or below 2^24. *)
Lemma round_pos_upper (a : Q) :
  (0 < a)%Q -> (round_pos a <= pow2 (ulp_exp a + 24))%Q.
Proof.
  intros Ha. unfold round_pos.
  destruct (ilog2_spec a Ha) as [_ Hhi].
  destruct (ulp_exp_bounds a) as [_ Hk].
  set (k := ulp_exp a) in *.
  assert (Hs : (a / pow2 k <= inject_Z (2 ^ 24))%Q).
  { assert (Ha24 : (a <= pow2 (k + 24))%Q).
    { apply Qle_trans with (pow2 (ilog2 a + 1)); [lra|].
      apply pow2_le. lia. }
    apply (scale_le _ _ k) in Ha24. rewrite scale_pow2 in Ha24.
    replace (k + 24 - k) with 24 in Ha24 by lia.
    rewrite (pow2_inject 24) in Ha24 by lia. exact Ha24. }
  apply rne_mono in Hs. rewrite rne_inject in Hs.
  rewrite pow2_add.
  rewrite (Qmult_comm (pow2 k)).
  apply Qmult_le_compat_r; [|apply Qlt_le_weak, pow2_pos].
  rewrite (pow2_inject 24) by lia. rewrite <- Zle_Qle. exact Hs.
Qed.

(** A normal number rounds to at least the power of two below it. *)
Lemma round_pos_lower (a : Q) :
  (0 < a)%Q -> ulp_exp a = ilog2 a - 23 -> (pow2 (ilog2 a) <= round_pos a)%Q.
Proof.
  intros Ha Hk. unfold round_pos. rewrite Hk.
  destruct (ilog2_spec a Ha) as [Hlo _].
  set (e := ilog2 a) in *.
  assert (Hs : (inject_Z (2 ^ 23) <= a / pow2 (e - 23))%Q).
  { apply (scale_le _ _ (e - 23)) in Hlo. rewrite scale_pow2 in Hlo.
    replace (e - (e - 23)) with 23 in Hlo by lia.
    rewrite (pow2_inject 23) in Hlo by lia. exact Hlo. }
  apply rne_mono in Hs. rewrite rne_inject in Hs.
  setoid_replace (pow2 e) with (pow2 23 * pow2 (e - 23))%Q
    by (rewrite <- pow2_add; replace (23 + (e - 23)) with e by lia;
        reflexivity).
  apply Qmult_le_compat_r; [|apply Qlt_le_weak, pow2_pos].
  rewrite (pow2_inject 23) by lia. rewrite <- Zle_Qle. exact Hs.
Qed.

Lemma round_pos_mono (a b : Q) :
  (0 < a)%Q -> (a <= b)%Q -> (round_pos a <= round_pos b)%Q.
Proof.
  intros Ha Hab.
  assert (Hb : (0 < b)%Q) by lra.
  pose proof (ilog2_mono a b Ha Hab) as He.
  destruct (Z.eq_dec (ulp_exp a) (ulp_exp b)) as [Heq|Hne].
  - unfold round_pos. rewrite Heq.
    apply Qmult_le_compat_r; [|apply Qlt_le_weak, pow2_pos].
    rewrite <- Zle_Qle. apply rne_mono, scale_le, Hab.
  - assert (Hlt : ulp_exp a < ulp_exp b) by (unfold ulp_exp in *; lia).
    assert (Hkb : ulp_exp b = ilog2 b - 23) by (unfold ulp_exp in *; lia).
    apply Qle_trans with (pow2 (ulp_exp a + 24)).
    + apply round_pos_upper, Ha.
    + apply Qle_trans with (pow2 (ilog2 b)).
      * apply pow2_le. lia.
      * apply round_pos_lower; assumption.
Qed.

(** Rounding moves a value by at most half a unit in the last place. *)
Lemma round_pos_error (a : Q) :
  (Qabs (round_pos a - a) <= pow2 (ulp_exp a) * (1 # 2))%Q.
Proof.
  unfold round_pos. set (k := ulp_exp a).
  pose proof (rne_near (a / pow2 k)) as [Hlo Hhi].
  pose proof (pow2_pos k) as Hk.
  pose proof (scale_back a k) as Hback.
  set (s := (a / pow2 k)%Q) in *. set (m := inject_Z (rne s)) in *.
  apply Qabs_Qle_condition.
  assert (H1 : ((m - (1 # 2)) * pow2 k <= s * pow2 k)%Q)
    by (apply Qmult_le_compat_r; lra).
  assert (H2 : (s * pow2 k <= (m + (1 # 2)) * pow2 k)%Q)
    by (apply Qmult_le_compat_r; lra).
  split; lra.
Qed.

(** Values that fit 24 bits at a permitted exponent are left alone. *)
Lemma round_pos_fixed (m k : Z) :
  emin <= k -> 0 < m < 2 ^ 24 ->
  (round_pos (inject_Z m * pow2 k) == inject_Z m * pow2 k)%Q.
Proof.
  intros Hk Hm.
  set (v := (inject_Z m * pow2 k)%Q).
  assert (Hv : (0 < v)%Q).
  { unfold v. apply Qmult_lt_0_compat; [|apply pow2_pos].
    change 0%Q with (inject_Z 0). rewrite <- Zlt_Qlt. lia. }
  assert (Hvhi : (v < pow2 (k + 24))%Q).
  { unfold v. rewrite pow2_add, (Qmult_comm (pow2 k)).
    apply Qmult_lt_compat_r; [apply pow2_pos|].
    rewrite (pow2_inject 24) by lia. rewrite <- Zlt_Qlt. lia. }
  destruct (ilog2_spec v Hv) as [Hlo _].
  assert (He : ilog2 v < k + 24) by (apply pow2_lt_inv; lra).
  unfold round_pos.
  assert (Hk' : emin <= ulp_exp v <= k) by (unfold ulp_exp; lia).
  set (k' := ulp_exp v) in *.
  assert (Hs : (v / pow2 k' == inject_Z (m * 2 ^ (k - k')))%Q).
  { unfold v. rewrite div_pow2, <- Qmult_assoc, <- pow2_add.
    rewrite inject_Z_mult, <- (pow2_inject (k - k')) by lia.
    replace (k + - k') with (k - k') by lia. reflexivity. }
  rewrite (rne_comp _ _ Hs), rne_inject.
  rewrite <- Hs. apply scale_back.
Qed.


(** *** Rounding with sign *)

Lemma Qnum_sign (q : Q) :
  (Qnum q = 0 <-> (q == 0)%Q)
  /\ (0 < Qnum q <-> (0 < q)%Q)
  /\ (Qnum q < 0 <-> (q < 0)%Q).
Proof.
  destruct q as [n d]. unfold Qeq, Qlt. cbn. repeat split; lia.
Qed.

Lemma round32_zero (q : Q) : (q == 0)%Q -> round32 q = 0%Q.
Proof.
  intros H. apply Qnum_sign in H. unfold round32. rewrite H. reflexivity.
Qed.

Lemma round32_pos (q : Q) : (0 < q)%Q -> round32 q = round_pos q.
Proof.
  intros H. apply Qnum_sign in H. unfold round32.
  destruct (Qnum q); [lia | reflexivity | lia].
Qed.

Lemma round32_neg (q : Q) : (q < 0)%Q -> round32 q = (- round_pos (- q))%Q.
Proof.
  intros H. apply Qnum_sign in H. unfold round32.
  destruct (Qnum q); [lia | lia | reflexivity].
Qed.

Lemma Q_sign_cases (q : Q) : {(q < 0)%Q} + {(q == 0)%Q} + {(0 < q)%Q}.
Proof.
  destruct (Q_dec q 0) as [[H|H]|H]; auto.
Qed.

#[global] Instance round32_comp : Proper (Qeq ==> Qeq) round32.
Proof.
  intros x y Hxy.
  destruct (Q_sign_cases x) as [[Hx|Hx]|Hx].
  - rewrite (round32_neg x Hx), (round32_neg y) by (rewrite <- Hxy; exact Hx).
    apply Qopp_comp, round_pos_comp; [lra | rewrite Hxy; reflexivity].
  - rewrite (round32_zero x Hx), (round32_zero y) by (rewrite <- Hxy; exact Hx).
    reflexivity.
  - rewrite (round32_pos x Hx), (round32_pos y) by (rewrite <- Hxy; exact Hx).
    apply round_pos_comp; assumption.
Qed.

Lemma round32_nonneg (q : Q) : (0 <= q)%Q -> (0 <= round32 q)%Q.
Proof.
  intros Hq. destruct (Q_sign_cases q) as [[H|H]|H].
  - lra.
  - rewrite (round32_zero q H). apply Qle_refl.
  - rewrite (round32_pos q H). apply round_pos_nonneg, Hq.
Qed.

Lemma round32_opp (q : Q) : (round32 (- q) == - round32 q)%Q.
Proof.
  destruct (Q_sign_cases q) as [[H|H]|H].
  - rewrite (round32_neg q H), (round32_pos (- q)) by lra. ring.
  - rewrite (round32_zero q H), (round32_zero (- q)) by lra. reflexivity.
  - rewrite (round32_pos q H), (round32_neg (- q)) by lra.
    apply Qopp_comp, round_pos_comp; [lra | ring].
Qed.

Lemma round32_abs (q : Q) : (Qabs (round32 q) == round32 (Qabs q))%Q.
Proof.
  destruct (Q_sign_cases q) as [[H|H]|H].
  - rewrite (Qabs_neg q) by lra.
    rewrite round32_opp.
    apply Qabs_neg.
    pose proof (round32_nonneg (- q) ltac:(lra)) as Hn.
    rewrite round32_opp in Hn. lra.
  - rewrite (Qabs_pos q) by lra. apply Qabs_pos, round32_nonneg. lra.
  - rewrite (Qabs_pos q) by lra. apply Qabs_pos, round32_nonneg. lra.
Qed.

Lemma round32_mono (x y : Q) : (x <= y)%Q -> (round32 x <= round32 y)%Q.
Proof.
  intros Hxy.
  destruct (Q_sign_cases x) as [[Hx|Hx]|Hx];
    destruct (Q_sign_cases y) as [[Hy|Hy]|Hy]; try (exfalso; lra).
  - rewrite (round32_neg x Hx), (round32_neg y Hy).
    apply Qopp_le_compat, round_pos_mono; lra.
  - rewrite (round32_neg x Hx), (round32_zero y Hy).
    pose proof (round_pos_nonneg (- x) ltac:(lra)). lra.
  - rewrite (round32_neg x Hx), (round32_pos y Hy).
    pose proof (round_pos_nonneg (- x) ltac:(lra)).
    pose proof (round_pos_nonneg y ltac:(lra)). lra.
  - rewrite (round32_zero x Hx), (round32_zero y Hy). apply Qle_refl.
  - rewrite (round32_zero x Hx), (round32_pos y Hy).
    apply round_pos_nonneg. lra.
  - rewrite (round32_pos x Hx), (round32_pos y Hy).
    apply round_pos_mono; assumption.
Qed.

Lemma round32_fixed (q : Q) : representable q -> (round32 q == q)%Q.
Proof.
  intros (m & k & Hk & Hm & Hq). rewrite Hq.
  destruct (Z.lt_trichotomy m 0) as [Hneg | [Hz | Hpos]].
  - setoid_replace (inject_Z m * pow2 k)%Q
      with (- (inject_Z (- m) * pow2 k))%Q
      by (rewrite inject_Z_opp; ring).
    rewrite round32_opp. apply Qopp_comp.
    assert (Hp : (0 < inject_Z (- m) * pow2 k)%Q).
    { apply Qmult_lt_0_compat; [|apply pow2_pos].
      change 0%Q with (inject_Z 0). rewrite <- Zlt_Qlt. lia. }
    rewrite (round32_pos _ Hp). apply round_pos_fixed; lia.
  - subst m. rewrite round32_zero by ring. ring.
  - assert (Hp : (0 < inject_Z m * pow2 k)%Q).
    { apply Qmult_lt_0_compat; [|apply pow2_pos].
      change 0%Q with (inject_Z 0). rewrite <- Zlt_Qlt. lia. }
    rewrite (round32_pos _ Hp). apply round_pos_fixed; lia.
Qed.

Lemma round_pos_representable (a : Q) :
  (0 < a)%Q -> representable (round_pos a).
Proof.
  intros Ha.
  pose proof (round_pos_upper a Ha) as Hup.
  destruct (ulp_exp_bounds a) as [Hk _].
  assert (Hm0 : 0 <= rne (a / pow2 (ulp_exp a))).
  { apply rne_nonneg. rewrite div_pow2.
    apply Qmult_le_0_compat; [lra | apply Qlt_le_weak, pow2_pos]. }
  unfold round_pos in *. set (k := ulp_exp a) in *.
  set (m := rne (a / pow2 k)) in *.
  assert (Hm : m <= 2 ^ 24).
  { rewrite pow2_add, (Qmult_comm (pow2 k)) in Hup.
    apply Qmult_le_r in Hup; [|apply pow2_pos].
    rewrite (pow2_inject 24) in Hup by lia.
    rewrite <- Zle_Qle in Hup. exact Hup. }
  destruct (Z.eq_dec m (2 ^ 24)) as [Heq|Hne].
  - exists (2 ^ 23), (k + 1). split; [lia|]. split; [reflexivity|].
    rewrite Heq, pow2_add.
    change (pow2 1) with 2%Q.
    change (inject_Z (2 ^ 24)) with 16777216%Q.
    change (inject_Z (2 ^ 23)) with 8388608%Q.
    ring.
  - exists m, k. split; [exact Hk|]. split; [lia | reflexivity].
Qed.

Lemma round32_representable (q : Q) : representable (round32 q).
Proof.
  destruct (Q_sign_cases q) as [[H|H]|H].
  - rewrite (round32_neg q H).
    destruct (round_pos_representable (- q) ltac:(lra)) as (m & k & Hk & Hm & Hq).
    exists (- m), k. split; [exact Hk|]. split; [lia|].
    rewrite Hq, inject_Z_opp. ring.
  - rewrite (round32_zero q H).
    exists 0, 0. split; [unfold emin; lia|]. split; [reflexivity|]. ring.
  - rewrite (round32_pos q H). apply round_pos_representable, H.
Qed.

Lemma round32_idempotent (q : Q) : (round32 (round32 q) == round32 q)%Q.
Proof. apply round32_fixed, round32_representable. Qed.

(** Integers of magnitude up to 2^24 are floats. *)
Lemma round32_small_int (n : Z) :
  Z.abs n <= 2 ^ 24 -> (round32 (inject_Z n) == inject_Z n)%Q.
Proof.
  intros Hn. apply round32_fixed.
  destruct (Z.eq_dec (Z.abs n) (2 ^ 24)) as [Heq|Hne].
  - change (2 ^ 24) with 16777216 in Heq.
    assert (Hcases : n = 16777216 \/ n = -16777216) by lia.
    destruct Hcases as [-> | ->].
    + exists 8388608, 1. split; [unfold emin; lia|]. split; reflexivity.
    + exists (-8388608), 1. split; [unfold emin; lia|]. split; reflexivity.
  - exists n, 0. split; [unfold emin; lia|]. split; [lia|].
    change (pow2 0) with 1%Q. ring.
Qed.

(** Below 2^n the rounding error is at most 2^(n-25), when 2^(n-24) is
    no finer than the subnormal spacing. *)
Lemma round32_error (q : Q) (n : Z) :
  emin <= n - 24 -> (Qabs q < pow2 n)%Q ->
  (Qabs (round32 q - q) <= pow2 (n - 25))%Q.
Proof.
  intros Hn Hq.
  assert (Hpos : forall a : Q, (0 < a)%Q -> (a < pow2 n)%Q ->
            (Qabs (round_pos a - a) <= pow2 (n - 25))%Q).
  { intros a Ha Han.
    apply Qle_trans with (pow2 (ulp_exp a) * (1 # 2))%Q;
      [apply round_pos_error|].
    destruct (ilog2_spec a Ha) as [Hlo _].
    assert (ilog2 a < n) by (apply pow2_lt_inv; lra).
    assert (Hk : ulp_exp a <= n - 24) by (unfold ulp_exp; lia).
    setoid_replace (pow2 (n - 25)) with (pow2 (n - 24) * (1 # 2))%Q.
    - apply Qmult_le_compat_r; [apply pow2_le, Hk | discriminate].
    - replace (n - 25) with (n - 24 + -1) by lia. rewrite pow2_add.
      reflexivity. }
  destruct (Q_sign_cases q) as [[H|H]|H].
  - rewrite (round32_neg q H).
    rewrite (Qabs_neg q) in Hq by lra.
    specialize (Hpos (- q)%Q ltac:(lra) Hq).
    setoid_replace (- round_pos (- q) - q)%Q
      with (- (round_pos (- q) - - q))%Q by ring.
    rewrite Qabs_opp. exact Hpos.
  - rewrite (round32_zero q H).
    setoid_replace (0 - q)%Q with 0%Q by lra.
    apply Qlt_le_weak, pow2_pos.
  - rewrite (round32_pos q H).
    rewrite (Qabs_pos q) in Hq by lra.
    exact (Hpos q H Hq).
Qed.

End Binary32Facts.

Module FinderFacts.
Import Binary32 Binary32Facts Finder.

(** What ends up in [diff]: the float nearest to a value, truncated.
    It grows with the value. *)
Lemma stored_mono (x y : Q) :
  (x <= y)%Q -> Qfloor (round32 x) <= Qfloor (round32 y).
Proof. intros H. apply Qfloor_resp_le, round32_mono, H. Qed.

(** The stored difference is the rounded exact distance to the float
    bound, truncated. *)
Lemma diffTo_floor (lowPitch : Z) (p : Q) :
  diffTo lowPitch p = Qfloor (round32 (Qabs (of_int lowPitch - p))).
Proof.
  unfold diffTo. rewrite float_to_int_nonneg by apply Qabs_nonneg.
  apply Qfloor_comp, round32_abs.
Qed.

Lemma diffTo_nonneg (lowPitch : Z) (p : Q) : 0 <= diffTo lowPitch p.
Proof.
  rewrite diffTo_floor.
  change 0 with (Qfloor 0). apply Qfloor_resp_le, round32_nonneg, Qabs_nonneg.
Qed.

(** Every table entry is a float. *)
Lemma pitchAt_fixed (tbl : table) (x : nat) :
  (round32 (pitchAt tbl x) == pitchAt tbl x)%Q.
Proof. apply round32_idempotent. Qed.

(** Converting the int bound keeps its order with the table entries. *)
Lemma of_int_le_entry (tbl : table) (lowPitch : Z) (x : nat) :
  (int_to_float lowPitch <= pitchAt tbl x)%Q ->
  (of_int lowPitch <= pitchAt tbl x)%Q.
Proof.
  intros H. rewrite <- (pitchAt_fixed tbl x). apply round32_mono, H.
Qed.

(** An int of magnitude up to 2^24 converts to itself. *)
Lemma of_int_exact (z : Z) :
  Z.abs z <= 16777216 -> (of_int z == int_to_float z)%Q.
Proof. intros H. apply round32_small_int. exact H. Qed.

(** ** The scan, one iteration at a time *)

Section Scan.
Variable pitchFrequency : table.
Variables lowPitch highPitch : Z.

Lemma scan_prefix_S (k : nat) :
  scan_prefix pitchFrequency lowPitch highPitch (S k)
  = scan_body pitchFrequency lowPitch highPitch k
      (scan_prefix pitchFrequency lowPitch highPitch k).
Proof. reflexivity. Qed.

(** [lastDiff] always holds the previous iteration's difference. *)
Lemma lastDiff_prefix (k : nat) :
  lastDiff (scan_prefix pitchFrequency lowPitch highPitch k)
  = prevDiff pitchFrequency lowPitch k.
Proof. destruct k; reflexivity. Qed.

Lemma desired_step (k : nat) :
  desiredMidiNote (scan_prefix pitchFrequency lowPitch highPitch (S k))
  = if recorded pitchFrequency lowPitch k
    then Z.of_nat k
    else desiredMidiNote (scan_prefix pitchFrequency lowPitch highPitch k).
Proof.
  rewrite scan_prefix_S. unfold scan_body, recorded. cbn [desiredMidiNote].
  rewrite lastDiff_prefix. reflexivity.
Qed.

(** The candidate after [k] iterations is the last recorded index below
    [k], or -1 when there is none. *)
Lemma desired_last_recorded (k : nat) :
  (desiredMidiNote (scan_prefix pitchFrequency lowPitch highPitch k) = -1
   /\ forall x : nat, (x < k)%nat -> recorded pitchFrequency lowPitch x = false)
  \/ (exists x : nat,
        (x < k)%nat
        /\ desiredMidiNote (scan_prefix pitchFrequency lowPitch highPitch k)
           = Z.of_nat x
        /\ recorded pitchFrequency lowPitch x = true
        /\ forall y : nat, (x < y < k)%nat ->
             recorded pitchFrequency lowPitch y = false).
Proof.
  induction k as [|k IH].
  - left. split; [reflexivity | intros x Hx; lia].
  - rewrite desired_step.
    destruct (recorded pitchFrequency lowPitch k) eqn:Hk.
    + right. exists k.
      split; [lia|]. split; [reflexivity|]. split; [exact Hk|].
      intros y Hy; lia.
    + destruct IH as [[Hm Hnone] | (x & Hx & Hd & Hr & Hlast)].
      * left. split; [assumption|].
        intros x Hx. destruct (Nat.eq_dec x k) as [->|Hne]; [assumption|].
        apply Hnone; lia.
      * right. exists x.
        split; [lia|]. split; [exact Hd|]. split; [exact Hr|].
        intros y Hy. destruct (Nat.eq_dec y k) as [->|Hne]; [assumption|].
        apply Hlast; lia.
Qed.

Lemma desired_range (k : nat) :
  desiredMidiNote (scan_prefix pitchFrequency lowPitch highPitch k) = -1
  \/ 0 <= desiredMidiNote (scan_prefix pitchFrequency lowPitch highPitch k)
       < Z.of_nat k.
Proof.
  destruct (desired_last_recorded k) as [[Hm _] | (x & Hx & Hd & _)].
  - left; assumption.
  - right. rewrite Hd. lia.
Qed.

(** What has been printed after [k] iterations: the entries inside the
    band, in index order. *)
Lemma serialOut_prefix (k : nat) :
  serialOut (scan_prefix pitchFrequency lowPitch highPitch k)
  = filter (inBand lowPitch highPitch) (map (pitchAt pitchFrequency) (seq 0 k)).
Proof.
  induction k as [|k IH].
  - reflexivity.
  - rewrite scan_prefix_S. unfold scan_body. cbn [serialOut].
    rewrite seq_S, map_app, filter_app, IH. cbn [seq map filter Nat.add].
    destruct (inBand lowPitch highPitch (pitchAt pitchFrequency k)).
    + reflexivity.
    + symmetry. apply app_nil_r.
Qed.

End Scan.

(** The candidate never depends on [highPitch]. *)
Lemma desired_highPitch_irrelevant (tbl : table) (lowPitch h1 h2 : Z) (k : nat) :
  desiredMidiNote (scan_prefix tbl lowPitch h1 k)
  = desiredMidiNote (scan_prefix tbl lowPitch h2 k).
Proof.
  induction k as [|k IH].
  - reflexivity.
  - rewrite !desired_step, IH. reflexivity.
Qed.

(** ** Truncated differences and exact distances *)

Lemma inject_floor_le (q : Q) : (inject_Z (Qfloor q) <= q)%Q.
Proof. apply Qfloor_le. Qed.

Lemma lt_inject_floor_succ (q : Q) : (q < inject_Z (Qfloor q) + 1)%Q.
Proof.
  pose proof (Qlt_floor q) as H. rewrite inject_Z_plus in H. exact H.
Qed.

(** Two values at least 1 apart have different integer parts. *)
Lemma Qfloor_lt_of_gap (a b : Q) : (a + 1 <= b)%Q -> Qfloor a < Qfloor b.
Proof.
  intros Hgap. rewrite Zlt_Qlt.
  pose proof (inject_floor_le a). pose proof (lt_inject_floor_succ b).
  lra.
Qed.

(** Two values less than 1 apart have integer parts at most 1 apart. *)
Lemma Qfloor_close (a b : Q) :
  (Qabs (a - b) < 1)%Q -> Z.abs (Qfloor a - Qfloor b) <= 1.
Proof.
  intros Hclose. apply Qabs_Qlt_condition in Hclose. destruct Hclose as [Hlo Hhi].
  pose proof (inject_floor_le a). pose proof (lt_inject_floor_succ a).
  pose proof (inject_floor_le b). pose proof (lt_inject_floor_succ b).
  assert (Qfloor a < Qfloor b + 2).
  { rewrite Zlt_Qlt, inject_Z_plus. change (inject_Z 2) with 2%Q. lra. }
  assert (Qfloor b < Qfloor a + 2).
  { rewrite Zlt_Qlt, inject_Z_plus. change (inject_Z 2) with 2%Q. lra. }
  lia.
Qed.

Lemma diffAt_floor_distance (tbl : table) (lowPitch : Z) (x : nat) :
  diffAt tbl lowPitch x
  = Qfloor (round32 (distance tbl (of_int lowPitch) x)).
Proof. apply diffTo_floor. Qed.

(** Rounding error of at most 1/4 moves the integer part by at most 1. *)
Lemma Qfloor_near (a b : Q) :
  (Qabs (a - b) <= 1 # 4)%Q -> Z.abs (Qfloor a - Qfloor b) <= 1.
Proof.
  intros Hnear. apply Qfloor_close.
  apply Qle_lt_trans with (1 # 4)%Q; [exact Hnear | reflexivity].
Qed.

(** ** Ascending tables *)

Lemma strictly_ascendingb_adjacent (tbl : table) (i : nat) :
  strictly_ascendingb tbl = true -> (i < noteCount - 1)%nat ->
  (pitchAt tbl i < pitchAt tbl (S i))%Q.
Proof.
  unfold strictly_ascendingb. intros Hall Hi.
  rewrite forallb_forall in Hall.
  specialize (Hall i). rewrite in_seq in Hall.
  specialize (Hall ltac:(lia)).
  apply negb_true_iff in Hall.
  apply Qnot_le_lt. intros Hle.
  apply Qle_bool_iff in Hle. congruence.
Qed.

Lemma strictly_ascendingb_ascending (tbl : table) :
  strictly_ascendingb tbl = true -> ascending tbl.
Proof.
  intros Hall.
  assert (Hd : forall d i : nat, (i + d < noteCount)%nat ->
                 (pitchAt tbl i <= pitchAt tbl (i + d))%Q).
  { induction d as [|d IH]; intros i Hi.
    - rewrite Nat.add_0_r. apply Qle_refl.
    - apply Qle_trans with (pitchAt tbl (i + d)).
      + apply IH. lia.
      + replace (i + S d)%nat with (S (i + d)) by lia.
        apply Qlt_le_weak, strictly_ascendingb_adjacent; [assumption|].
        unfold noteCount in *. lia. }
  intros i j [Hij Hj].
  replace j with (i + (j - i))%nat by lia.
  apply Hd. lia.
Qed.

(** ** The band test and the serial port *)

Lemma inBand_iff (lowPitch highPitch : Z) (p : Q) :
  inBand lowPitch highPitch p = true
  <-> (of_int lowPitch <= p)%Q /\ (p <= of_int highPitch)%Q.
Proof. unfold inBand. rewrite andb_true_iff, !Qle_bool_iff. reflexivity. Qed.

(** What was printed before a call is kept and changes nothing else. *)
Lemma scan_after_frame (tbl : table) (lowPitch highPitch : Z)
    (printed : list Q) (k : nat) :
  lastDiff (for_upto k (scan_body tbl lowPitch highPitch) (scan_after printed))
  = lastDiff (scan_prefix tbl lowPitch highPitch k)
  /\ desiredMidiNote
       (for_upto k (scan_body tbl lowPitch highPitch) (scan_after printed))
     = desiredMidiNote (scan_prefix tbl lowPitch highPitch k)
  /\ serialOut
       (for_upto k (scan_body tbl lowPitch highPitch) (scan_after printed))
     = printed ++ serialOut (scan_prefix tbl lowPitch highPitch k).
Proof.
  unfold scan_prefix.
  induction k as [|k (IHl & IHd & IHs)].
  - cbn. rewrite app_nil_r. repeat split.
  - cbn [for_upto].
    set (A := for_upto k (scan_body tbl lowPitch highPitch)
                       (scan_after printed)) in *.
    set (B := for_upto k (scan_body tbl lowPitch highPitch) scan_init) in *.
    unfold scan_body. cbn [lastDiff desiredMidiNote serialOut].
    rewrite IHl, IHd, IHs.
    split; [reflexivity|]. split; [reflexivity|].
    destruct (inBand lowPitch highPitch (pitchAt tbl k));
      [rewrite app_assoc|]; reflexivity.
Qed.

End FinderFacts.

(** ** The finder on ascending tables *)

Module FinderMore.
Import Binary32 Binary32Facts Finder FinderFacts.

(** ** Differences along an ascending table *)

Section Ascending.
Variable tbl : table.
Variable lowPitch : Z.
Hypothesis Hasc : ascending tbl.

(** Below the float pitch the differences do not grow with the index. *)
Lemma diff_below_nonincreasing (i j : nat) :
  (i <= j < noteCount)%nat ->
  (pitchAt tbl j <= of_int lowPitch)%Q ->
  diffAt tbl lowPitch j <= diffAt tbl lowPitch i.
Proof.
  intros Hij Hj.
  pose proof (Hasc i j Hij) as Hle.
  rewrite !diffAt_floor_distance. apply stored_mono.
  unfold distance.
  rewrite !Qabs_pos by lra. lra.
Qed.

(** Above the float pitch the differences do not shrink with the index. *)
Lemma diff_above_nondecreasing (i j : nat) :
  (i <= j < noteCount)%nat ->
  (of_int lowPitch <= pitchAt tbl i)%Q ->
  diffAt tbl lowPitch i <= diffAt tbl lowPitch j.
Proof.
  intros Hij Hi.
  pose proof (Hasc i j Hij) as Hle.
  rewrite !diffAt_floor_distance. apply stored_mono.
  unfold distance.
  rewrite !Qabs_neg by lra. lra.
Qed.

(** Once an entry is at or above the pitch, no later index is recorded. *)
Lemma above_not_recorded (i : nat) :
  (S i < noteCount)%nat ->
  (of_int lowPitch <= pitchAt tbl i)%Q ->
  recorded tbl lowPitch (S i) = false.
Proof.
  intros Hi Habove. unfold recorded, prevDiff.
  apply Z.ltb_ge. apply diff_above_nondecreasing; [lia | exact Habove].
Qed.

(** A recorded index other than 0 follows an entry strictly below the
    pitch. *)
Lemma recorded_after_below (i : nat) :
  (S i < noteCount)%nat ->
  recorded tbl lowPitch (S i) = true ->
  (pitchAt tbl i < of_int lowPitch)%Q.
Proof.
  intros Hi Hrec.
  apply Qnot_le_lt. intros Habove.
  rewrite (above_not_recorded i Hi Habove) in Hrec. discriminate.
Qed.

(** From the last recorded index on, the differences never fall below
    its own. *)
Lemma after_last_recorded (r : nat) :
  (forall y : nat, (r < y < noteCount)%nat -> recorded tbl lowPitch y = false) ->
  forall d : nat, (r + d < noteCount)%nat ->
    diffAt tbl lowPitch r <= diffAt tbl lowPitch (r + d).
Proof.
  intros Hlast. induction d as [|d IH]; intros Hd.
  - rewrite Nat.add_0_r. lia.
  - specialize (IH ltac:(lia)).
    pose proof (Hlast (r + S d)%nat ltac:(lia)) as Hn.
    replace (r + S d)%nat with (S (r + d)) in * by lia.
    unfold recorded, prevDiff in Hn. apply Z.ltb_ge in Hn. lia.
Qed.

(** The last recorded index is the first index of least difference. *)
Lemma last_recorded_first_least (r : nat) :
  (r < noteCount)%nat ->
  recorded tbl lowPitch r = true ->
  (forall y : nat, (r < y < noteCount)%nat -> recorded tbl lowPitch y = false) ->
  (forall y : nat, (y < noteCount)%nat ->
     diffAt tbl lowPitch r <= diffAt tbl lowPitch y)
  /\ (forall y : nat, (y < r)%nat ->
        diffAt tbl lowPitch r < diffAt tbl lowPitch y).
Proof.
  intros Hr Hrec Hlast.
  assert (Hbefore : forall y : nat, (y < r)%nat ->
            diffAt tbl lowPitch r < diffAt tbl lowPitch y).
  { intros y Hy. destruct r as [|r']; [lia|].
    pose proof (recorded_after_below r' Hr Hrec) as Hbelow.
    unfold recorded, prevDiff in Hrec. apply Z.ltb_lt in Hrec.
    assert (diffAt tbl lowPitch r' <= diffAt tbl lowPitch y).
    { apply diff_below_nonincreasing; [lia | lra]. }
    lia. }
  split; [|exact Hbefore].
  intros y Hy.
  destruct (Nat.lt_ge_cases y r) as [Hlt|Hge].
  - specialize (Hbefore y Hlt). lia.
  - replace y with (r + (y - r))%nat by lia.
    apply after_last_recorded; [exact Hlast | lia].
Qed.

End Ascending.

(** The note is the last recorded index, when there is one. *)
Lemma note_is_last_recorded (tbl : table) (lowPitch highPitch : Z) :
  fst (findMidiNoteFromPitches tbl lowPitch highPitch) <> -1 ->
  exists r : nat,
    (r < noteCount)%nat
    /\ fst (findMidiNoteFromPitches tbl lowPitch highPitch) = Z.of_nat r
    /\ recorded tbl lowPitch r = true
    /\ forall y : nat, (r < y < noteCount)%nat ->
         recorded tbl lowPitch y = false.
Proof.
  intros Hnot. cbn [findMidiNoteFromPitches fst] in *.
  destruct (desired_last_recorded tbl lowPitch highPitch noteCount)
    as [[Hm _] | Hex].
  - contradiction.
  - exact Hex.
Qed.

(** If some index is recorded and none after it, it is the note. *)
Lemma note_of_last_recorded (tbl : table) (lowPitch highPitch : Z) (r : nat) :
  (r < noteCount)%nat ->
  recorded tbl lowPitch r = true ->
  (forall y : nat, (r < y < noteCount)%nat -> recorded tbl lowPitch y = false) ->
  fst (findMidiNoteFromPitches tbl lowPitch highPitch) = Z.of_nat r.
Proof.
  intros Hr Hrec Hlast. cbn [findMidiNoteFromPitches fst].
  destruct (desired_last_recorded tbl lowPitch highPitch noteCount)
    as [[_ Hnone] | (x & Hx & Hd & Hxr & Hxlast)].
  - rewrite (Hnone r Hr) in Hrec. discriminate.
  - rewrite Hd. f_equal.
    destruct (Nat.lt_trichotomy x r) as [Hlt | [Heq | Hgt]].
    + rewrite (Hxlast r ltac:(lia)) in Hrec. discriminate.
    + exact Heq.
    + rewrite (Hlast x ltac:(lia)) in Hxr. discriminate.
Qed.

(** ** Entries with integer values *)

Lemma distance_of_integer (tbl : table) (lowPitch z : Z) (x : nat) :
  (pitchAt tbl x == inject_Z z)%Q ->
  (distance tbl (int_to_float lowPitch) x == inject_Z (Z.abs (lowPitch - z)))%Q.
Proof.
  intros Hz. unfold distance, int_to_float. rewrite Hz.
  unfold Qminus. rewrite <- inject_Z_opp, <- inject_Z_plus.
  unfold Qabs, inject_Z. apply Qeq_refl.
Qed.

(** The distance from the float bound is the distance from the bound
    itself when the bound converts exactly. *)
Lemma distance_of_int_exact (tbl : table) (lowPitch : Z) (x : nat) :
  Z.abs lowPitch <= 16777216 ->
  (distance tbl (of_int lowPitch) x
   == distance tbl (int_to_float lowPitch) x)%Q.
Proof.
  intros HL. unfold distance. rewrite (of_int_exact lowPitch HL). reflexivity.
Qed.

(** Between integers of magnitude up to 2^23 the float subtraction is
    exact, so the stored difference is the exact distance. *)
Lemma diffAt_of_integer (tbl : table) (lowPitch z : Z) (x : nat) :
  Z.abs lowPitch <= 8388608 -> Z.abs z <= 8388608 ->
  (pitchAt tbl x == inject_Z z)%Q ->
  diffAt tbl lowPitch x = Z.abs (lowPitch - z).
Proof.
  intros HL Hz Hx. rewrite diffAt_floor_distance.
  rewrite distance_of_int_exact by lia.
  rewrite (distance_of_integer tbl lowPitch z x Hx).
  rewrite round32_small_int by lia. apply Qfloor_Z.
Qed.

Lemma distance_is_diffAt (tbl : table) (lowPitch : Z) (x : nat) :
  Z.abs lowPitch <= 8388608 ->
  (exists z : Z, Z.abs z <= 8388608 /\ (pitchAt tbl x == inject_Z z)%Q) ->
  (distance tbl (int_to_float lowPitch) x == inject_Z (diffAt tbl lowPitch x))%Q.
Proof.
  intros HL (z & Hz & Hx).
  rewrite (diffAt_of_integer tbl lowPitch z x HL Hz Hx).
  apply distance_of_integer, Hx.
Qed.

(** An entry equal to the bound has stored difference 0. *)
Lemma diffAt_zero (tbl : table) (lowPitch : Z) (x : nat) :
  (pitchAt tbl x == int_to_float lowPitch)%Q ->
  diffAt tbl lowPitch x = 0.
Proof.
  intros Hx. rewrite diffAt_floor_distance. unfold distance, of_int.
  rewrite <- Hx, pitchAt_fixed.
  setoid_replace (pitchAt tbl x - pitchAt tbl x)%Q with 0%Q by ring.
  reflexivity.
Qed.

Lemma pitchAt_stepTable (x : nat) :
  (x < noteCount)%nat ->
  (pitchAt Tables.stepTable x == inject_Z (100 * Z.of_nat x))%Q.
Proof.
  intros Hx. unfold pitchAt, Tables.stepTable.
  change 0%Q with ((fun x => inject_Z (100 * Z.of_nat x)) 0%nat).
  rewrite map_nth, seq_nth by exact Hx.
  apply round32_small_int. unfold noteCount in Hx. cbn [Nat.add]. lia.
Qed.

Lemma stepTable_ascending : ascending Tables.stepTable.
Proof. apply strictly_ascendingb_ascending. vm_compute. reflexivity. Qed.

(** ** The scan as the spec words it *)

Section SpecScan.
Variable tbl : table.
Variable lowBound : Q.

(** After at least one iteration the spec's scan holds the first index of
    least exact distance among those visited. *)
Lemma spec_prefix_first_least (k : nat) :
  exists c : nat,
    (c <= k)%nat
    /\ SpecFinder.candidate
         (for_upto (S k) (SpecFinder.spec_body tbl lowBound)
                   {| SpecFinder.best := None; SpecFinder.candidate := -1 |})
       = Z.of_nat c
    /\ SpecFinder.best
         (for_upto (S k) (SpecFinder.spec_body tbl lowBound)
                   {| SpecFinder.best := None; SpecFinder.candidate := -1 |})
       = Some (distance tbl lowBound c)
    /\ (forall y : nat, (y <= k)%nat ->
          (distance tbl lowBound c <= distance tbl lowBound y)%Q)
    /\ (forall y : nat, (y < c)%nat ->
          (distance tbl lowBound c < distance tbl lowBound y)%Q).
Proof.
  induction k as [|k IH].
  - exists 0%nat.
    split; [lia|]. split; [reflexivity|]. split; [reflexivity|]. split.
    + intros y Hy. assert (y = 0%nat) as -> by lia. apply Qle_refl.
    + intros y Hy. lia.
  - destruct IH as (c & Hc & Hcand & Hbest & Hmin & Hfirst).
    rewrite for_upto_S.
    set (st := for_upto (S k) (SpecFinder.spec_body tbl lowBound)
                 {| SpecFinder.best := None; SpecFinder.candidate := -1 |}) in *.
    unfold SpecFinder.spec_body. rewrite Hbest.
    fold (distance tbl lowBound (S k)).
    destruct (Qle_bool (distance tbl lowBound c) (distance tbl lowBound (S k)))
      eqn:Hcmp.
    + apply Qle_bool_iff in Hcmp.
      exists c. split; [lia|]. split; [exact Hcand|]. split; [exact Hbest|].
      split; [|exact Hfirst].
      intros y Hy. destruct (Nat.eq_dec y (S k)) as [->|Hne]; [exact Hcmp|].
      apply Hmin. lia.
    + assert (Hlt : (distance tbl lowBound (S k) < distance tbl lowBound c)%Q).
      { apply Qnot_le_lt. intros Hle. apply Qle_bool_iff in Hle. congruence. }
      exists (S k). cbn [SpecFinder.candidate SpecFinder.best].
      split; [lia|]. split; [reflexivity|]. split; [reflexivity|]. split.
      * intros y Hy. destruct (Nat.eq_dec y (S k)) as [->|Hne]; [apply Qle_refl|].
        apply Qlt_le_weak, Qlt_le_trans with (distance tbl lowBound c);
          [exact Hlt | apply Hmin; lia].
      * intros y Hy.
        apply Qlt_le_trans with (distance tbl lowBound c);
          [exact Hlt | apply Hmin; lia].
Qed.

End SpecScan.

(** ** Loops whose bodies agree *)

Lemma for_upto_ext {S : Type} (n : nat) (f g : nat -> S -> S) (s : S) :
  (forall (x : nat) (t : S), (x < n)%nat -> f x t = g x t) ->
  for_upto n f s = for_upto n g s.
Proof.
  induction n as [|n IH]; intros Hfg.
  - reflexivity.
  - cbn [for_upto]. rewrite IH by (intros x t Hx; apply Hfg; lia).
    apply Hfg. lia.
Qed.

End FinderMore.

(** * Properties of [findMidiNoteFromPitches] *)

Module FinderSpec.
Import Binary32 Binary32Facts Finder FinderFacts FinderMore.

(** The spec's scenario 1: the tie between 200 and 300 goes to index 2. *)
Example scenario_tie_at_250 :
  findMidiNoteFromPitches Tables.stepTable 250 260 = (2, []).
Proof. vm_compute. reflexivity. Qed.

(** The spec's scenario 2: an exact match at index 0. *)
Example scenario_exact_match_at_0 :
  fst (findMidiNoteFromPitches Tables.stepTable 0 0) = 0.
Proof. vm_compute. reflexivity. Qed.

(** The bounds are converted to float for the band test: 16777217 becomes
    16777216, so the band [16777217, 16777217] prints the entry
    16777216. *)
Example band_test_converts_the_bounds :
  map Qred (snd (findMidiNoteFromPitches Tables.wideTable 16777217 16777217))
  = [inject_Z 16777216].
Proof. vm_compute. reflexivity. Qed.

(** The subtraction is rounded before it is truncated: 4134 - 2^-20 is
    stored as 4134 though the exact distance has integer part 4133. *)
Example difference_is_rounded_then_truncated :
  diffAt Tables.tinyFirstTable 4134 0 = 4134
  /\ Qfloor (distance Tables.tinyFirstTable (int_to_float 4134) 0) = 4133
  /\ diffAt Tables.tinyFirstTable 4134 1 = 4133.
Proof. repeat split; vm_compute; reflexivity. Qed.

(** C5. For every table and all bounds, the value returned by
    [findMidiNoteFromPitches] is -1 or an integer in 0..126. *)
Theorem C5_result_in_range (tbl : table) (lowPitch highPitch : Z) :
  fst (findMidiNoteFromPitches tbl lowPitch highPitch) = -1
  \/ 0 <= fst (findMidiNoteFromPitches tbl lowPitch highPitch) <= 126.
Proof.
  cbn [findMidiNoteFromPitches fst].
  destruct (desired_range tbl lowPitch highPitch noteCount) as [H|H].
  - left; exact H.
  - right. change (Z.of_nat noteCount) with 127 in H. lia.
Qed.

(** C6. The returned note does not depend on [highPitch]: any two calls
    with the same table and the same [lowPitch] return the same note. *)
Theorem C6_highPitch_unused (tbl : table) (lowPitch h1 h2 : Z) :
  fst (findMidiNoteFromPitches tbl lowPitch h1)
  = fst (findMidiNoteFromPitches tbl lowPitch h2).
Proof.
  cbn [findMidiNoteFromPitches fst].
  apply desired_highPitch_irrelevant.
Qed.

(** C3. Every iteration stores the current difference in [lastDiff],
    whether or not the candidate changed; so iteration [k] records [k]
    exactly when its difference is strictly below the difference of
    iteration [k-1] (below 32000 for [k = 0]); the function returns the
    last recorded index, or -1 when none was recorded; and for some
    127-entry table the returned index does not have the smallest
    difference. *)
Theorem C3_compares_with_previous_difference :
  (forall (tbl : table) (lowPitch highPitch : Z),
     (forall k : nat,
        lastDiff (scan_prefix tbl lowPitch highPitch (S k))
        = diffAt tbl lowPitch k)
     /\ (forall k : nat,
           desiredMidiNote (scan_prefix tbl lowPitch highPitch (S k))
           = if diffAt tbl lowPitch k <? prevDiff tbl lowPitch k
             then Z.of_nat k
             else desiredMidiNote (scan_prefix tbl lowPitch highPitch k))
     /\ ((fst (findMidiNoteFromPitches tbl lowPitch highPitch) = -1
          /\ forall x : nat, (x < 127)%nat -> recorded tbl lowPitch x = false)
         \/ exists x : nat,
              (x < 127)%nat
              /\ fst (findMidiNoteFromPitches tbl lowPitch highPitch) = Z.of_nat x
              /\ recorded tbl lowPitch x = true
              /\ forall y : nat, (x < y < 127)%nat ->
                   recorded tbl lowPitch y = false))
  /\ (exists (tbl : table) (lowPitch highPitch : Z) (x y : nat),
        length tbl = 127%nat
        /\ fst (findMidiNoteFromPitches tbl lowPitch highPitch) = Z.of_nat x
        /\ (y < 127)%nat
        /\ diffAt tbl lowPitch y < diffAt tbl lowPitch x
        /\ (distance tbl (int_to_float lowPitch) y
            < distance tbl (int_to_float lowPitch) x)%Q).
Proof.
  split.
  - intros tbl lowPitch highPitch. split; [|split].
    + intros k. apply (lastDiff_prefix tbl lowPitch highPitch (S k)).
    + intros k. apply desired_step.
    + apply (desired_last_recorded tbl lowPitch highPitch noteCount).
  - exists Tables.bumpTable, 0, 0, 2%nat, 0%nat.
    repeat split; try reflexivity. lia.
Qed.

(** C4, as the code has it.  -1 is returned exactly when no index was
    recorded, that is when no difference is strictly below its
    predecessor's (below 32000 for index 0); whenever the truncated
    difference at index 0 is below 32000 the function does not return
    -1. *)
Theorem C4_sentinel_when_nothing_recorded
    (tbl : table) (lowPitch highPitch : Z) :
  (fst (findMidiNoteFromPitches tbl lowPitch highPitch) = -1
   <-> forall x : nat, (x < 127)%nat -> recorded tbl lowPitch x = false)
  /\ (diffAt tbl lowPitch 0 < initialDiff ->
      fst (findMidiNoteFromPitches tbl lowPitch highPitch) <> -1).
Proof.
  cbn [findMidiNoteFromPitches fst].
  pose proof (desired_last_recorded tbl lowPitch highPitch noteCount) as Hlast.
  unfold noteCount in *.
  assert (Hiff :
    desiredMidiNote (scan_prefix tbl lowPitch highPitch 127) = -1
    <-> forall x : nat, (x < 127)%nat -> recorded tbl lowPitch x = false).
  { destruct Hlast as [[Hm Hnone] | (x & Hx & Hd & Hr & _)].
    - split; intros _; assumption.
    - split.
      + intros Hm. lia.
      + intros Hnone. rewrite (Hnone x Hx) in Hr. discriminate. }
  split; [exact Hiff|].
  intros H0 Hm.
  pose proof (proj1 Hiff Hm 0%nat ltac:(lia)) as Hnot.
  unfold recorded, prevDiff in Hnot.
  apply Z.ltb_ge in Hnot. lia.
Qed.

Lemma C4_sentinel_witness :
  diffAt Tables.stepTable 250 0 < initialDiff
  /\ fst (findMidiNoteFromPitches Tables.stepTable 250 260) <> -1.
Proof.
  split.
  - reflexivity.
  - apply (proj2 (C4_sentinel_when_nothing_recorded Tables.stepTable 250 260)).
    reflexivity.
Defined.

(** C4 as stated fails: with the 127-entry table 0, 100, ..., 12600 and
    [lowPitch = -32000] every difference is at least 32000 and grows, so
    nothing is recorded and -1 is returned. *)
Lemma C4_sentinel_counterexample :
  length Tables.stepTable = 127%nat
  /\ fst (findMidiNoteFromPitches Tables.stepTable (-32000) (-32000)) = -1.
Proof. split; vm_compute; reflexivity. Qed.

(** C8, as the code has it.  The scan runs its body exactly 127 times and
    then stops, for every table and all bounds: the loop machine returns
    for every fuel above 127, with the function's result.  Every call
    starts from fresh locals: whatever the serial port carried before, the
    note is the same and the call only appends to it.  What it appends
    is, in index order, every table entry [p] with
    float(lowPitch) <= p <= float(highPitch), the int bounds being
    converted to float for the comparison. *)
Theorem C8_terminates_after_127_iterations
    (tbl : table) (lowPitch highPitch : Z) (fuel : nat) (printed : list Q) :
  (127 < fuel)%nat ->
  (exists st : scan_state,
     for_machine fuel 127 (scan_body tbl lowPitch highPitch) 0 scan_init 0
     = Some (st, 127%nat)
     /\ (desiredMidiNote st, serialOut st)
        = findMidiNoteFromPitches tbl lowPitch highPitch)
  /\ (exists st : scan_state,
        for_machine fuel 127 (scan_body tbl lowPitch highPitch) 0
                    (scan_after printed) 0
        = Some (st, 127%nat)
        /\ desiredMidiNote st
           = fst (findMidiNoteFromPitches tbl lowPitch highPitch)
        /\ serialOut st
           = printed ++ snd (findMidiNoteFromPitches tbl lowPitch highPitch))
  /\ snd (findMidiNoteFromPitches tbl lowPitch highPitch)
     = filter (inBand lowPitch highPitch) (map (pitchAt tbl) (seq 0 127))
  /\ (forall p : Q,
        inBand lowPitch highPitch p = true
        <-> (round32 (int_to_float lowPitch) <= p)%Q
            /\ (p <= round32 (int_to_float highPitch))%Q).
Proof.
  intros Hfuel. split; [|split; [|split]].
  - exists (scan_prefix tbl lowPitch highPitch noteCount). split.
    + apply (for_machine_upto 127 (scan_body tbl lowPitch highPitch)
               scan_init fuel 0 0); lia.
    + reflexivity.
  - exists (for_upto 127 (scan_body tbl lowPitch highPitch)
                     (scan_after printed)).
    split.
    + apply (for_machine_upto 127 (scan_body tbl lowPitch highPitch)
               (scan_after printed) fuel 0 0); lia.
    + destruct (scan_after_frame tbl lowPitch highPitch printed 127)
        as (_ & Hd & Hs).
      split; [exact Hd | exact Hs].
  - cbn [findMidiNoteFromPitches snd]. apply serialOut_prefix.
  - intros p. apply inBand_iff.
Qed.

Lemma C8_terminates_witness :
  (127 < 128)%nat
  /\ snd (findMidiNoteFromPitches Tables.stepTable 250 460)
     = filter (inBand 250 460) (map (pitchAt Tables.stepTable) (seq 0 127)).
Proof.
  split.
  - lia.
  - apply (C8_terminates_after_127_iterations Tables.stepTable 250 460 128 []).
    lia.
Defined.

(** C8 as stated fails on "no I/O": with the table 0, 100, ..., 12600 and
    the band [250, 460] the call prints two entries, 300 and 400. *)
Lemma C8_prints_counterexample :
  map Qred (snd (findMidiNoteFromPitches Tables.stepTable 250 460))
  = [inject_Z 300; inject_Z 400]
  /\ snd (findMidiNoteFromPitches Tables.stepTable 250 460) <> [].
Proof. split; [vm_compute; reflexivity | vm_compute; discriminate]. Qed.

(** C1, as the code has it.  On an ascending table the scan visits the
    indices 0..126; the difference it stores for an index is the float
    nearest to |float(lowPitch) - table[x]|, truncated to int; it returns
    -1 when no index was recorded, and otherwise the first index
    attaining the least stored difference. *)
Theorem C1_ascending_first_least_stored_difference
    (tbl : table) (lowPitch highPitch : Z) :
  ascending tbl ->
  (forall x : nat,
     diffAt tbl lowPitch x
     = Qfloor (round32 (distance tbl (round32 (int_to_float lowPitch)) x)))
  /\ ((fst (findMidiNoteFromPitches tbl lowPitch highPitch) = -1
       /\ forall x : nat, (x < 127)%nat -> recorded tbl lowPitch x = false)
      \/ exists r : nat,
           (r < 127)%nat
           /\ fst (findMidiNoteFromPitches tbl lowPitch highPitch) = Z.of_nat r
           /\ (forall y : nat, (y < 127)%nat ->
                 diffAt tbl lowPitch r <= diffAt tbl lowPitch y)
           /\ (forall y : nat, (y < r)%nat ->
                 diffAt tbl lowPitch r < diffAt tbl lowPitch y)).
Proof.
  intros Hasc. split.
  - intros x. apply diffAt_floor_distance.
  - cbn [findMidiNoteFromPitches fst].
    destruct (desired_last_recorded tbl lowPitch highPitch noteCount)
      as [Hnone | (r & Hr & Hnote & Hrec & Hlast)].
    + left. exact Hnone.
    + right. exists r. split; [exact Hr|]. split; [exact Hnote|].
      exact (last_recorded_first_least tbl lowPitch Hasc r Hr Hrec Hlast).
Qed.

Lemma C1_ascending_witness :
  diffAt Tables.stepTable 250 2
  = Qfloor (round32 (distance Tables.stepTable (round32 (int_to_float 250)) 2)).
Proof.
  apply (C1_ascending_first_least_stored_difference Tables.stepTable 250 260).
  exact stepTable_ascending.
Defined.

(** C1 as stated fails.  On the strictly ascending table 0, 1/2, 1, ...,
    63 with [lowPitch = 1] the code returns index 1 (entry 1/2), whose
    difference 1/2 is stored as 0, although entry 2 equals 1 and is
    strictly closer; at index 2 the stored difference is 0 again, not
    below the 0 before it.  The running-best scan of the spec returns
    2. *)
Lemma C1_first_least_counterexample :
  length Tables.halfTable = 127%nat
  /\ strictly_ascendingb Tables.halfTable = true
  /\ diffAt Tables.halfTable 1 1 = 0
  /\ diffAt Tables.halfTable 1 2 = 0
  /\ fst (findMidiNoteFromPitches Tables.halfTable 1 1) = 1
  /\ SpecFinder.spec_findNearestIndex Tables.halfTable (int_to_float 1) = 2
  /\ (distance Tables.halfTable (int_to_float 1) 2
      < distance Tables.halfTable (int_to_float 1) 1)%Q.
Proof. repeat split; vm_compute; reflexivity. Qed.

(** C2, as the code has it.  On an ascending table: an index whose stored
    difference equals that of the index before it is not recorded and
    leaves the candidate as it was; the function never returns the later
    of two indices with equal stored differences; and when [lowPitch] has
    magnitude at most 2^24, so that it converts to float exactly, it
    never returns the later of two entries equally close to [lowPitch]. *)
Theorem C2_ascending_never_returns_later_tie
    (tbl : table) (lowPitch highPitch : Z) :
  ascending tbl ->
  (forall x : nat,
     diffAt tbl lowPitch (S x) = diffAt tbl lowPitch x ->
     recorded tbl lowPitch (S x) = false
     /\ desiredMidiNote (scan_prefix tbl lowPitch highPitch (S (S x)))
        = desiredMidiNote (scan_prefix tbl lowPitch highPitch (S x)))
  /\ (forall i j : nat,
        (i < j < 127)%nat ->
        diffAt tbl lowPitch i = diffAt tbl lowPitch j ->
        fst (findMidiNoteFromPitches tbl lowPitch highPitch) <> Z.of_nat j)
  /\ (Z.abs lowPitch <= 16777216 ->
      forall i j : nat,
        (i < j < 127)%nat ->
        (distance tbl (int_to_float lowPitch) i
         == distance tbl (int_to_float lowPitch) j)%Q ->
        fst (findMidiNoteFromPitches tbl lowPitch highPitch) <> Z.of_nat j).
Proof.
  intros Hasc.
  assert (Hstored : forall i j : nat,
            (i < j < 127)%nat ->
            diffAt tbl lowPitch i = diffAt tbl lowPitch j ->
            fst (findMidiNoteFromPitches tbl lowPitch highPitch) <> Z.of_nat j).
  { intros i j Hij Heq Hnote.
    assert (Hnot : fst (findMidiNoteFromPitches tbl lowPitch highPitch) <> -1)
      by (rewrite Hnote; lia).
    destruct (note_is_last_recorded tbl lowPitch highPitch Hnot)
      as (r & Hr & Hnote' & Hrec & Hlast).
    assert (r = j) as -> by (apply Nat2Z.inj; congruence).
    destruct (last_recorded_first_least tbl lowPitch Hasc j Hr Hrec Hlast)
      as [_ Hfirst].
    specialize (Hfirst i ltac:(lia)). lia. }
  split; [|split].
  - intros x Heq.
    assert (Hrec : recorded tbl lowPitch (S x) = false).
    { unfold recorded, prevDiff. rewrite Heq. apply Z.ltb_irrefl. }
    split; [exact Hrec|].
    rewrite desired_step, Hrec. reflexivity.
  - exact Hstored.
  - intros HL i j Hij Htie. apply (Hstored i j Hij).
    rewrite !diffAt_floor_distance.
    rewrite !distance_of_int_exact by exact HL.
    rewrite Htie. reflexivity.
Qed.

Lemma C2_ascending_tie_witness :
  fst (findMidiNoteFromPitches Tables.stepTable 250 260) <> Z.of_nat 3.
Proof.
  apply (C2_ascending_never_returns_later_tie Tables.stepTable 250 260
           stepTable_ascending) with (i := 2%nat).
  - lia.
  - lia.
  - vm_compute. reflexivity.
Defined.

(** C2 as stated fails.  The table 16777218, 16777220, ... is strictly
    ascending and [lowPitch = 16777219] lies exactly half way between its
    first two entries, the two closest; converted to float it becomes
    16777220, so the stored differences are 2 and 0 and the code returns
    index 1, the later of the two. *)
Lemma C2_later_tie_counterexample :
  length Tables.tieTable = 127%nat
  /\ strictly_ascendingb Tables.tieTable = true
  /\ (distance Tables.tieTable (int_to_float 16777219) 0
      == distance Tables.tieTable (int_to_float 16777219) 1)%Q
  /\ forallb (fun x =>
                Qle_bool (distance Tables.tieTable (int_to_float 16777219) 0)
                         (distance Tables.tieTable (int_to_float 16777219) x))
             (seq 0 127) = true
  /\ diffAt Tables.tieTable 16777219 0 = 2
  /\ diffAt Tables.tieTable 16777219 1 = 0
  /\ Binary32.of_int 16777219 = 16777220%Q
  /\ fst (findMidiNoteFromPitches Tables.tieTable 16777219 16777219) = 1.
Proof. repeat split; vm_compute; reflexivity. Qed.

(** C7, as the code has it.  For an ascending 127-entry table whose
    entries lie between 0 and 1e9 and whose last entry exceeds the one
    before it by at least 65, more than the spacing 64 of floats near
    1e9, the call with [lowPitch = 1e9] returns 126, and index 126 has the
    globally smallest distance to 1e9. *)
Theorem C7_far_above_returns_last_index (tbl : table) (highPitch : Z) :
  length tbl = 127%nat ->
  ascending tbl ->
  (forall x : nat, (x < 127)%nat ->
     (0 <= pitchAt tbl x)%Q /\ (pitchAt tbl x <= 1000000000)%Q) ->
  (pitchAt tbl 125 + 65 <= pitchAt tbl 126)%Q ->
  fst (findMidiNoteFromPitches tbl 1000000000 highPitch) = 126
  /\ forall x : nat, (x < 127)%nat ->
       (distance tbl (int_to_float 1000000000) 126
        <= distance tbl (int_to_float 1000000000) x)%Q.
Proof.
  intros _ Hasc Hrange Hgap.
  assert (Hbound : (of_int 1000000000 == 1000000000)%Q).
  { apply Qeq_bool_iff. vm_compute. reflexivity. }
  assert (Habs : forall x : nat, (x < 127)%nat ->
            (distance tbl (of_int 1000000000) x
             == 1000000000 - pitchAt tbl x)%Q).
  { intros x Hx. unfold distance. rewrite Hbound.
    apply Qabs_pos. destruct (Hrange x Hx). lra. }
  assert (Herr : forall x : nat, (x < 127)%nat ->
            (Qabs (round32 (distance tbl (of_int 1000000000) x)
                   - distance tbl (of_int 1000000000) x) <= 32)%Q).
  { intros x Hx.
    change 32%Q with (pow2 (30 - 25)).
    apply round32_error; [unfold emin; lia|].
    rewrite (Habs x Hx). destruct (Hrange x Hx) as [Hlo Hhi].
    rewrite Qabs_pos by lra.
    apply Qle_lt_trans with 1000000000%Q; [lra | reflexivity]. }
  split.
  - apply (note_of_last_recorded tbl 1000000000 highPitch 126).
    + unfold noteCount. lia.
    + unfold recorded, prevDiff. apply Z.ltb_lt.
      rewrite !diffAt_floor_distance.
      apply Qfloor_lt_of_gap.
      pose proof (Herr 125%nat ltac:(lia)) as H125.
      pose proof (Herr 126%nat ltac:(lia)) as H126.
      apply Qabs_Qle_condition in H125. apply Qabs_Qle_condition in H126.
      rewrite (Habs 125%nat) in H125 by lia.
      rewrite (Habs 126%nat) in H126 by lia.
      rewrite (Habs 125%nat), (Habs 126%nat) by lia.
      set (r125 := round32 (1000000000 - pitchAt tbl 125)) in *.
      set (r126 := round32 (1000000000 - pitchAt tbl 126)) in *.
      lra.
    + intros y Hy. unfold noteCount in Hy. lia.
  - intros x Hx. unfold distance, int_to_float.
    change (inject_Z 1000000000) with 1000000000%Q.
    destruct (Hrange x Hx) as [_ Hx1]. destruct (Hrange 126%nat ltac:(lia)) as [_ H1].
    rewrite !Qabs_pos by lra.
    assert (pitchAt tbl x <= pitchAt tbl 126)%Q.
    { apply Hasc. unfold noteCount. lia. }
    lra.
Qed.

Lemma C7_far_above_witness :
  length Tables.stepTable = 127%nat
  /\ fst (findMidiNoteFromPitches Tables.stepTable 1000000000 1000000000) = 126.
Proof.
  split.
  - reflexivity.
  - apply (C7_far_above_returns_last_index Tables.stepTable 1000000000).
    + reflexivity.
    + exact stepTable_ascending.
    + intros x Hx.
      assert (Hall : forallb (fun x =>
                                Qle_bool 0 (pitchAt Tables.stepTable x)
                                && Qle_bool (pitchAt Tables.stepTable x)
                                            1000000000)
                             (seq 0 127) = true) by (vm_compute; reflexivity).
      rewrite forallb_forall in Hall.
      specialize (Hall x). rewrite in_seq in Hall.
      specialize (Hall ltac:(lia)).
      apply andb_true_iff in Hall. rewrite !Qle_bool_iff in Hall. exact Hall.
    + vm_compute. discriminate.
Defined.

(** C7 as stated fails: the table 0, 64, ..., 7936, 8000, 8001 is
    strictly ascending with every entry far below 1e9, yet the call with
    [lowPitch = 1e9] returns 125: the float differences 1e9 - 8000 and
    1e9 - 8001 are both 999992000, so index 126 is not recorded. *)
Lemma C7_far_above_counterexample :
  length Tables.closeTopTable = 127%nat
  /\ strictly_ascendingb Tables.closeTopTable = true
  /\ forallb (fun x => Qle_bool (pitchAt Tables.closeTopTable x) 1000000000)
             (seq 0 127) = true
  /\ diffAt Tables.closeTopTable 1000000000 125 = 999992000
  /\ diffAt Tables.closeTopTable 1000000000 126 = 999992000
  /\ fst (findMidiNoteFromPitches Tables.closeTopTable 1000000000 1000000000)
     = 125
  /\ fst (findMidiNoteFromPitches Tables.closeTopTable 1000000000 1000000000)
     <> 126.
Proof.
  repeat split; try (vm_compute; reflexivity).
  vm_compute. discriminate.
Qed.

(** C9, as the code has it.  The caller's float band edges are stored in
    int parameters, so only their integer parts reach the finder.  Each
    difference is computed in float and truncated: what is stored is the
    integer part of the float nearest to |float(lowPitch) - table[x]|,
    which is within 1 of the integer part of that distance when the
    distance is below 2^23.  An entry whose stored difference equals that
    of the entry before it is not recorded and leaves the candidate as it
    was. *)
Theorem C9_bounds_and_differences_truncated
    (tbl : table) (lowPitch highPitch : Z) :
  (forall f g : Q,
     Loop.call_finder tbl f g
     = Loop.call_finder tbl (int_to_float (float_to_int f))
                            (int_to_float (float_to_int g)))
  /\ (forall x : nat,
        diffAt tbl lowPitch x
        = Qfloor (round32 (distance tbl (round32 (int_to_float lowPitch)) x)))
  /\ (forall x : nat,
        (distance tbl (round32 (int_to_float lowPitch)) x < 8388608)%Q ->
        Z.abs (diffAt tbl lowPitch x
               - Qfloor (distance tbl (round32 (int_to_float lowPitch)) x))
        <= 1)
  /\ (forall x : nat,
        diffAt tbl lowPitch (S x) = diffAt tbl lowPitch x ->
        recorded tbl lowPitch (S x) = false
        /\ desiredMidiNote (scan_prefix tbl lowPitch highPitch (S (S x)))
           = desiredMidiNote (scan_prefix tbl lowPitch highPitch (S x))).
Proof.
  split; [|split; [|split]].
  - intros f g. unfold Loop.call_finder.
    rewrite !float_to_int_inject. reflexivity.
  - intros x. apply diffAt_floor_distance.
  - intros x Hsmall. rewrite diffAt_floor_distance.
    fold (of_int lowPitch) in *.
    apply Qfloor_near.
    change (1 # 4)%Q with (pow2 (23 - 25)).
    apply round32_error; [unfold emin; lia|].
    unfold distance in *. rewrite Qabs_pos by apply Qabs_nonneg.
    exact Hsmall.
  - intros x Heq.
    assert (Hrec : recorded tbl lowPitch (S x) = false).
    { unfold recorded, prevDiff. rewrite Heq. apply Z.ltb_irrefl. }
    split; [exact Hrec|].
    rewrite desired_step, Hrec. reflexivity.
Qed.

Lemma C9_truncation_witness :
  diffAt Tables.halfTable 1 (S 1) = diffAt Tables.halfTable 1 1
  /\ recorded Tables.halfTable 1 2 = false.
Proof.
  split.
  - vm_compute. reflexivity.
  - apply (C9_bounds_and_differences_truncated Tables.halfTable 1 1).
    vm_compute. reflexivity.
Defined.

(** C9 as stated fails: in the strictly ascending table 3/4, 5/4, 3, 4,
    ..., 127 with [lowPitch = 2] the first two entries are at distances
    5/4 and 3/4, less than 1 apart, yet their integer differences are 1
    and 0, and index 1 replaces index 0 as the candidate. *)
Lemma C9_truncation_counterexample :
  length Tables.nearTable = 127%nat
  /\ strictly_ascendingb Tables.nearTable = true
  /\ (Qabs (distance Tables.nearTable (int_to_float 2) 0
            - distance Tables.nearTable (int_to_float 2) 1) < 1)%Q
  /\ diffAt Tables.nearTable 2 0 = 1
  /\ diffAt Tables.nearTable 2 1 = 0
  /\ desiredMidiNote (scan_prefix Tables.nearTable 2 2 1) = 0
  /\ desiredMidiNote (scan_prefix Tables.nearTable 2 2 2) = 1.
Proof. repeat split; vm_compute; reflexivity. Qed.

End FinderSpec.

(** * Properties of the loudest-band scan *)

Module LoopSpec.
Import Loop.

Section Loudest.
Variable spectrum : list Z.

(** The running maximum never exceeds a bound on the samples seen. *)
Lemma loudest_upper (m : Z) (k : nat) :
  0 <= m ->
  (forall i : nat, (i < k)%nat -> nth i spectrum 0 <= m) ->
  loudestSample (loud_prefix spectrum k) <= m.
Proof.
  intros Hm. induction k as [|k IH]; intros Hall.
  - exact Hm.
  - unfold loud_prefix. rewrite for_upto_S.
    fold (loud_prefix spectrum k). unfold loud_body.
    destruct (nth k spectrum 0 >=? loudestSample (loud_prefix spectrum k)).
    + cbn [loudestSample]. apply Hall. lia.
    + apply IH. intros i Hi. apply Hall. lia.
Qed.

(** After [k] bands, the state holds the last band among the first [k]
    that carries their maximum, when that maximum is not negative. *)
Lemma loud_prefix_last_max (k b : nat) (m : Z) :
  (b < k)%nat ->
  nth b spectrum 0 = m ->
  0 <= m ->
  (forall i : nat, (i < k)%nat -> nth i spectrum 0 <= m) ->
  (forall i : nat, (b < i < k)%nat -> nth i spectrum 0 < m) ->
  loud_prefix spectrum k
  = {| loudestSample := m; freqLow := bandLow b; freqHigh := bandHigh b |}.
Proof.
  intros Hb Hnth Hm. induction k as [|k IH]; intros Hall Hafter.
  - lia.
  - unfold loud_prefix. rewrite for_upto_S.
    fold (loud_prefix spectrum k). unfold loud_body.
    destruct (Nat.eq_dec b k) as [->|Hne].
    + assert (Hup : loudestSample (loud_prefix spectrum k) <= m).
      { apply loudest_upper; [exact Hm|]. intros i Hi. apply Hall. lia. }
      rewrite Hnth.
      destruct (Z.geb_spec m (loudestSample (loud_prefix spectrum k))) as [_|Hlt].
      * reflexivity.
      * lia.
    + rewrite IH; try lia.
      * cbn [loudestSample].
        specialize (Hafter k ltac:(lia)).
        destruct (Z.geb_spec (nth k spectrum 0) m) as [Hge|_].
        -- lia.
        -- reflexivity.
      * intros i Hi. apply Hall. lia.
      * intros i Hi. apply Hafter. lia.
Qed.

End Loudest.

(** Bands 3 and 10 tie at 200000: band 10 is reported, and the finder is
    called with its edges 656.25 and 721.875 truncated to 656 and 721. *)
Example tied_bands_report_the_later :
  loop_report Tables.stepTable Tables.tiedSpectrum
  = Some (bandLow 10, bandHigh 10, 200000, 7)
  /\ float_to_int (bandLow 10) = 656
  /\ float_to_int (bandHigh 10) = 721.
Proof. repeat split; vm_compute; reflexivity. Qed.

(** C10.  The scan compares with [>=]: when band [b] carries the maximal
    amplitude [m] (not negative, as amplitudes are) and every later band
    is strictly below it, the scan ends with [b]'s edges in [freqLow] and
    [freqHigh]; these are the edges passed to the finder when [m] exceeds
    the threshold; and for an all-zero spectrum [b] is the last band,
    [spectrumSize - 1]. *)
Theorem C10_last_loudest_band_wins
    (spectrum : list Z) (b : nat) (m : Z) :
  length spectrum = spectrumSize ->
  (b < spectrumSize)%nat ->
  nth b spectrum 0 = m ->
  0 <= m ->
  (forall i : nat, (i < spectrumSize)%nat -> nth i spectrum 0 <= m) ->
  (forall i : nat, (b < i < spectrumSize)%nat -> nth i spectrum 0 < m) ->
  loudest_scan spectrum
  = {| loudestSample := m; freqLow := bandLow b; freqHigh := bandHigh b |}
  /\ (forall tbl : Finder.table,
        threshold < m ->
        loop_report tbl spectrum
        = Some (bandLow b, bandHigh b, m,
                call_finder tbl (bandLow b) (bandHigh b)))
  /\ ((forall i : nat, (i < spectrumSize)%nat -> nth i spectrum 0 = 0) ->
      b = (spectrumSize - 1)%nat).
Proof.
  intros _ Hb Hnth Hm Hall Hafter.
  assert (Hscan : loudest_scan spectrum
                  = {| loudestSample := m; freqLow := bandLow b;
                       freqHigh := bandHigh b |}).
  { apply (loud_prefix_last_max spectrum spectrumSize b m); assumption. }
  split; [exact Hscan|]. split.
  - intros tbl Hthr. unfold loop_report. rewrite Hscan.
    cbn [loudestSample freqLow freqHigh].
    destruct (Z.gtb_spec m threshold) as [_|Hle]; [reflexivity | lia].
  - intros Hzero.
    destruct (Nat.eq_dec b (spectrumSize - 1)) as [Heq|Hne]; [exact Heq|].
    exfalso.
    assert (Hlast : (b < spectrumSize - 1 < spectrumSize)%nat) by lia.
    pose proof (Hafter _ Hlast) as Hlt.
    rewrite (Hzero (spectrumSize - 1)%nat) in Hlt by lia.
    rewrite <- Hnth, (Hzero b Hb) in Hlt. lia.
Qed.

Lemma C10_all_zero_witness :
  length (repeat 0 64) = spectrumSize
  /\ loudest_scan (repeat 0 64)
     = {| loudestSample := 0; freqLow := bandLow 63; freqHigh := bandHigh 63 |}.
Proof.
  split.
  - reflexivity.
  - apply (C10_last_loudest_band_wins (repeat 0 64) 63 0).
    + reflexivity.
    + vm_compute. lia.
    + reflexivity.
    + lia.
    + intros i _. rewrite nth_repeat. lia.
    + intros i Hi. change spectrumSize with 64%nat in Hi. lia.
Defined.

End LoopSpec.


(** * The finder on ascending tables, and what it reads and prints *)

Module FinderExtra.
Import Binary32 Binary32Facts Finder FinderFacts FinderMore.

(** If no index is recorded the note is -1. *)
Lemma note_none_recorded (tbl : table) (lowPitch highPitch : Z) :
  (forall x : nat, (x < noteCount)%nat -> recorded tbl lowPitch x = false) ->
  fst (findMidiNoteFromPitches tbl lowPitch highPitch) = -1.
Proof.
  intros Hnone. cbn [findMidiNoteFromPitches fst].
  destruct (desired_last_recorded tbl lowPitch highPitch noteCount)
    as [[Hm _] | (x & Hx & _ & Hr & _)].
  - exact Hm.
  - rewrite (Hnone x Hx) in Hr. discriminate.
Qed.

(** X1.  On an ascending table, whenever the function returns an index
    (not -1), that index has the least stored difference of all 127
    entries, and every earlier index has a strictly larger one: the note
    is the first index of least truncated difference. *)
Theorem X1_ascending_first_least_difference
    (tbl : table) (lowPitch highPitch : Z) :
  ascending tbl ->
  fst (findMidiNoteFromPitches tbl lowPitch highPitch) <> -1 ->
  exists r : nat,
    (r < 127)%nat
    /\ fst (findMidiNoteFromPitches tbl lowPitch highPitch) = Z.of_nat r
    /\ (forall y : nat, (y < 127)%nat ->
          diffAt tbl lowPitch r <= diffAt tbl lowPitch y)
    /\ (forall y : nat, (y < r)%nat ->
          diffAt tbl lowPitch r < diffAt tbl lowPitch y).
Proof.
  intros Hasc Hnot.
  destruct (note_is_last_recorded tbl lowPitch highPitch Hnot)
    as (r & Hr & Hnote & Hrec & Hlast).
  exists r. split; [exact Hr|]. split; [exact Hnote|].
  exact (last_recorded_first_least tbl lowPitch Hasc r Hr Hrec Hlast).
Qed.

Lemma X1_ascending_witness :
  exists r : nat,
    (r < 127)%nat
    /\ fst (findMidiNoteFromPitches Tables.stepTable 250 260) = Z.of_nat r
    /\ (forall y : nat, (y < 127)%nat ->
          diffAt Tables.stepTable 250 r <= diffAt Tables.stepTable 250 y)
    /\ (forall y : nat, (y < r)%nat ->
          diffAt Tables.stepTable 250 r < diffAt Tables.stepTable 250 y).
Proof.
  apply (X1_ascending_first_least_difference Tables.stepTable 250 260).
  - exact stepTable_ascending.
  - vm_compute. discriminate.
Defined.

(** X2.  On an ascending table, when [lowPitch] has magnitude at most
    2^22 and every entry magnitude below 2^22, the entry of the returned
    index is less than 3/2 farther from [lowPitch] than any other entry:
    rounding and truncating the differences costs less than that. *)
Theorem X2_ascending_close_to_closest
    (tbl : table) (lowPitch highPitch : Z) (r : nat) :
  ascending tbl ->
  fst (findMidiNoteFromPitches tbl lowPitch highPitch) = Z.of_nat r ->
  Z.abs lowPitch <= 4194304 ->
  (forall x : nat, (x < 127)%nat -> (Qabs (pitchAt tbl x) < 4194304)%Q) ->
  forall y : nat, (y < 127)%nat ->
    (distance tbl (int_to_float lowPitch) r
     < distance tbl (int_to_float lowPitch) y + (3 # 2))%Q.
Proof.
  intros Hasc Hnote HL Hsmall y Hy.
  assert (Hnot : fst (findMidiNoteFromPitches tbl lowPitch highPitch) <> -1)
    by (rewrite Hnote; lia).
  destruct (note_is_last_recorded tbl lowPitch highPitch Hnot)
    as (r' & Hr & Hnote' & Hrec & Hlast).
  assert (r' = r) as -> by (apply Nat2Z.inj; congruence).
  destruct (last_recorded_first_least tbl lowPitch Hasc r Hr Hrec Hlast)
    as [Hmin _].
  specialize (Hmin y Hy). rewrite !diffAt_floor_distance in Hmin.
  rewrite !distance_of_int_exact in Hmin by lia.
  assert (Herr : forall x : nat, (x < 127)%nat ->
            (Qabs (round32 (distance tbl (int_to_float lowPitch) x)
                   - distance tbl (int_to_float lowPitch) x) <= 1 # 4)%Q).
  { intros x Hx.
    change (1 # 4)%Q with (pow2 (23 - 25)).
    apply round32_error; [unfold emin; lia|].
    unfold distance. rewrite Qabs_pos by apply Qabs_nonneg.
    specialize (Hsmall x Hx). apply Qabs_Qlt_condition in Hsmall.
    assert (HLq : (- (4194304) <= int_to_float lowPitch <= 4194304)%Q).
    { unfold int_to_float.
      change 4194304%Q with (inject_Z 4194304).
      rewrite <- inject_Z_opp, <- !Zle_Qle. lia. }
    apply Qabs_Qlt_condition.
    change (pow2 23) with 8388608%Q. split; lra. }
  pose proof (Herr r ltac:(unfold noteCount in Hr; lia)) as Er.
  pose proof (Herr y Hy) as Ey.
  apply Qabs_Qle_condition in Er. apply Qabs_Qle_condition in Ey.
  rewrite Zle_Qle in Hmin.
  pose proof (lt_inject_floor_succ
                (round32 (distance tbl (int_to_float lowPitch) r))).
  pose proof (inject_floor_le
                (round32 (distance tbl (int_to_float lowPitch) y))).
  lra.
Qed.

Lemma X2_close_to_closest_witness :
  (distance Tables.halfTable (int_to_float 1) 1
   < distance Tables.halfTable (int_to_float 1) 2 + (3 # 2))%Q.
Proof.
  apply (X2_ascending_close_to_closest Tables.halfTable 1 1 1).
  - apply strictly_ascendingb_ascending. vm_compute. reflexivity.
  - vm_compute. reflexivity.
  - lia.
  - intros x Hx.
    assert (Hall : forallb (fun x =>
                              negb (Qle_bool 4194304
                                      (Qabs (pitchAt Tables.halfTable x))))
                           (seq 0 127) = true) by (vm_compute; reflexivity).
    rewrite forallb_forall in Hall.
    specialize (Hall x). rewrite in_seq in Hall.
    specialize (Hall ltac:(lia)).
    apply negb_true_iff in Hall.
    apply Qnot_le_lt. intros Hle. apply Qle_bool_iff in Hle. congruence.
  - lia.
Defined.

(** X3.  On an ascending table, when [lowPitch] equals the entry at index
    [i] and the entry before it (if any) is at least 1 lower, the function
    returns [i]. *)
Theorem X3_exact_match_returns_its_index
    (tbl : table) (lowPitch highPitch : Z) (i : nat) :
  ascending tbl ->
  (i < 127)%nat ->
  (pitchAt tbl i == int_to_float lowPitch)%Q ->
  (forall j : nat, S j = i -> (pitchAt tbl j + 1 <= pitchAt tbl i)%Q) ->
  fst (findMidiNoteFromPitches tbl lowPitch highPitch) = Z.of_nat i.
Proof.
  intros Hasc Hi Heq Hgap.
  assert (Hzero : diffAt tbl lowPitch i = 0) by (apply diffAt_zero, Heq).
  assert (Hbound : (of_int lowPitch == pitchAt tbl i)%Q).
  { unfold of_int. rewrite <- Heq. apply pitchAt_fixed. }
  apply note_of_last_recorded.
  - exact Hi.
  - unfold recorded, prevDiff. rewrite Hzero. apply Z.ltb_lt.
    destruct i as [|j].
    + reflexivity.
    + specialize (Hgap j eq_refl).
      rewrite diffAt_floor_distance.
      apply Z.lt_le_trans with (Qfloor (round32 1)).
      * vm_compute. reflexivity.
      * apply stored_mono. unfold distance. rewrite Hbound.
        rewrite Qabs_pos by lra. lra.
  - intros y Hy. destruct y as [|y']; [lia|].
    apply (above_not_recorded tbl lowPitch Hasc y'); [lia|].
    rewrite Hbound. apply Hasc. unfold noteCount in *. lia.
Qed.

Lemma X3_exact_match_witness :
  fst (findMidiNoteFromPitches Tables.stepTable 700 700) = Z.of_nat 7.
Proof.
  apply (X3_exact_match_returns_its_index Tables.stepTable 700 700 7).
  - exact stepTable_ascending.
  - lia.
  - vm_compute. reflexivity.
  - intros j Hj. assert (j = 6%nat) as -> by lia. vm_compute. discriminate.
Defined.

(** X4.  On an ascending table, a [lowPitch] at or below the first entry
    gives note 0 when its stored difference to that entry is below 32000,
    and -1 otherwise. *)
Theorem X4_at_or_below_first_entry
    (tbl : table) (lowPitch highPitch : Z) :
  ascending tbl ->
  (int_to_float lowPitch <= pitchAt tbl 0)%Q ->
  fst (findMidiNoteFromPitches tbl lowPitch highPitch)
  = if diffAt tbl lowPitch 0 <? initialDiff then 0 else -1.
Proof.
  intros Hasc Hlow.
  assert (Hlater : forall y : nat, (0 < y < noteCount)%nat ->
            recorded tbl lowPitch y = false).
  { intros y Hy. destruct y as [|y']; [lia|].
    apply (above_not_recorded tbl lowPitch Hasc y'); [lia|].
    apply of_int_le_entry.
    apply Qle_trans with (pitchAt tbl 0); [exact Hlow|].
    apply Hasc. unfold noteCount in *. lia. }
  destruct (diffAt tbl lowPitch 0 <? initialDiff) eqn:H0.
  - apply (note_of_last_recorded tbl lowPitch highPitch 0).
    + unfold noteCount. lia.
    + exact H0.
    + exact Hlater.
  - apply note_none_recorded. intros x Hx.
    destruct x as [|x']; [exact H0|].
    apply Hlater. lia.
Qed.

Lemma X4_below_first_witness :
  fst (findMidiNoteFromPitches Tables.stepTable (-5) 20) = 0
  /\ fst (findMidiNoteFromPitches Tables.stepTable (-40000) 20) = -1.
Proof.
  split.
  - apply (X4_at_or_below_first_entry Tables.stepTable (-5) 20).
    + exact stepTable_ascending.
    + vm_compute. discriminate.
  - apply (X4_at_or_below_first_entry Tables.stepTable (-40000) 20).
    + exact stepTable_ascending.
    + vm_compute. discriminate.
Defined.

(** X5.  Only the first 127 table entries are read: two tables that agree
    on them give the same note and the same printed lines, whatever they
    hold from index 127 on. *)
Theorem X5_entries_from_127_on_are_not_read
    (tbl1 tbl2 : table) (lowPitch highPitch : Z) :
  firstn 127 tbl1 = firstn 127 tbl2 ->
  findMidiNoteFromPitches tbl1 lowPitch highPitch
  = findMidiNoteFromPitches tbl2 lowPitch highPitch.
Proof.
  intros Hsame.
  assert (Hat : forall x : nat, (x < 127)%nat -> pitchAt tbl1 x = pitchAt tbl2 x).
  { intros x Hx. unfold pitchAt.
    assert (Hcut : forall t : table, nth x t 0%Q = nth x (firstn 127 t) 0%Q).
    { intros t. rewrite nth_firstn.
      destruct (Nat.ltb_spec x 127) as [_|Hge]; [reflexivity | lia]. }
    rewrite (Hcut tbl1), (Hcut tbl2), Hsame. reflexivity. }
  unfold findMidiNoteFromPitches, scan_prefix.
  rewrite (for_upto_ext noteCount (scan_body tbl1 lowPitch highPitch)
             (scan_body tbl2 lowPitch highPitch) scan_init).
  - reflexivity.
  - intros x st Hx. unfold scan_body. rewrite (Hat x Hx). reflexivity.
Qed.

Lemma X5_not_read_witness :
  findMidiNoteFromPitches (Tables.stepTable ++ [1 # 3]%Q) 250 460
  = findMidiNoteFromPitches Tables.stepTable 250 460.
Proof.
  apply (X5_entries_from_127_on_are_not_read
           (Tables.stepTable ++ [1 # 3]%Q) Tables.stepTable 250 460).
  vm_compute. reflexivity.
Defined.

(** X6.  On an ascending table whose 127 entries are integers of
    magnitude at most 2^23, with [lowPitch] of magnitude at most 2^23,
    whenever the function returns an index (not -1) it returns the index
    the spec's running-best scan returns: the first index of least
    distance. *)
Theorem X6_ascending_integer_table_agrees_with_spec
    (tbl : table) (lowPitch highPitch : Z) :
  ascending tbl ->
  Z.abs lowPitch <= 8388608 ->
  (forall x : nat, (x < 127)%nat ->
     exists z : Z, Z.abs z <= 8388608 /\ (pitchAt tbl x == inject_Z z)%Q) ->
  fst (findMidiNoteFromPitches tbl lowPitch highPitch) <> -1 ->
  fst (findMidiNoteFromPitches tbl lowPitch highPitch)
  = SpecFinder.spec_findNearestIndex tbl (int_to_float lowPitch).
Proof.
  intros Hasc HL Hint Hnot.
  destruct (note_is_last_recorded tbl lowPitch highPitch Hnot)
    as (r & Hr & Hnote & Hrec & Hlast).
  destruct (last_recorded_first_least tbl lowPitch Hasc r Hr Hrec Hlast)
    as [Hmin Hfirst].
  destruct (spec_prefix_first_least tbl (int_to_float lowPitch) 126)
    as (c & Hc & Hcand & _ & Hsmin & Hsfirst).
  unfold SpecFinder.spec_findNearestIndex.
  change noteCount with 127%nat in *.
  rewrite Hnote, Hcand. f_equal.
  assert (Hd : forall x : nat, (x < 127)%nat ->
            (distance tbl (int_to_float lowPitch) x
             == inject_Z (diffAt tbl lowPitch x))%Q).
  { intros x Hx. apply distance_is_diffAt; [exact HL | apply Hint, Hx]. }
  destruct (Nat.lt_trichotomy r c) as [Hlt | [Heq | Hgt]].
  - exfalso.
    specialize (Hsfirst r Hlt).
    rewrite (Hd r), (Hd c) in Hsfirst by lia.
    rewrite <- Zlt_Qlt in Hsfirst.
    specialize (Hmin c ltac:(lia)). lia.
  - exact Heq.
  - exfalso.
    specialize (Hfirst c Hgt).
    specialize (Hsmin r ltac:(lia)).
    rewrite (Hd r), (Hd c) in Hsmin by lia.
    rewrite <- Zle_Qle in Hsmin. lia.
Qed.

Lemma X6_agrees_with_spec_witness :
  fst (findMidiNoteFromPitches Tables.stepTable 250 260)
  = SpecFinder.spec_findNearestIndex Tables.stepTable (int_to_float 250).
Proof.
  apply (X6_ascending_integer_table_agrees_with_spec Tables.stepTable 250 260).
  - exact stepTable_ascending.
  - lia.
  - intros x Hx. exists (100 * Z.of_nat x). split; [lia|].
    apply pitchAt_stepTable. unfold noteCount. exact Hx.
  - vm_compute. discriminate.
Defined.

(** X7.  When both bounds have magnitude at most 2^24, so that they
    convert to float exactly, the values the function prints are exactly
    the entries among the first 127 that lie in [lowPitch, highPitch],
    and with [highPitch] below [lowPitch] it prints nothing. *)
Theorem X7_prints_exactly_the_entries_in_band
    (tbl : table) (lowPitch highPitch : Z) :
  Z.abs lowPitch <= 16777216 ->
  Z.abs highPitch <= 16777216 ->
  (forall p : Q,
     In p (snd (findMidiNoteFromPitches tbl lowPitch highPitch))
     <-> exists x : nat,
           (x < 127)%nat /\ p = pitchAt tbl x
           /\ (int_to_float lowPitch <= p)%Q
           /\ (p <= int_to_float highPitch)%Q)
  /\ (highPitch < lowPitch ->
      snd (findMidiNoteFromPitches tbl lowPitch highPitch) = []).
Proof.
  intros HL HH.
  assert (Hin : forall p : Q,
     In p (snd (findMidiNoteFromPitches tbl lowPitch highPitch))
     <-> exists x : nat,
           (x < 127)%nat /\ p = pitchAt tbl x
           /\ (int_to_float lowPitch <= p)%Q
           /\ (p <= int_to_float highPitch)%Q).
  { intros p. cbn [findMidiNoteFromPitches snd].
    rewrite serialOut_prefix, filter_In, in_map_iff, inBand_iff.
    rewrite (of_int_exact lowPitch HL), (of_int_exact highPitch HH).
    split.
    - intros [(x & Hx & Hseq) [Hlo Hhi]].
      apply in_seq in Hseq. exists x.
      unfold noteCount in Hseq.
      split; [lia|]. split; [symmetry; exact Hx|]. split; assumption.
    - intros (x & Hx & Hp & Hlo & Hhi). split; [|split; assumption].
      exists x. split; [symmetry; exact Hp|].
      apply in_seq. unfold noteCount. lia. }
  split; [exact Hin|].
  intros Hinv.
  destruct (snd (findMidiNoteFromPitches tbl lowPitch highPitch))
    as [|p rest] eqn:Hout; [reflexivity|].
  exfalso.
  assert (Hp : In p (p :: rest)) by (left; reflexivity).
  apply (proj1 (Hin p)) in Hp. destruct Hp as (x & _ & _ & Hlo & Hhi).
  pose proof (Qle_trans _ _ _ Hlo Hhi) as Hle.
  unfold int_to_float in Hle. rewrite <- Zle_Qle in Hle. lia.
Qed.

Lemma X7_prints_witness :
  (-1 < 0) /\ snd (findMidiNoteFromPitches Tables.stepTable 0 (-1)) = [].
Proof.
  split.
  - lia.
  - apply (X7_prints_exactly_the_entries_in_band Tables.stepTable 0 (-1)).
    + lia.
    + lia.
    + lia.
Defined.

End FinderExtra.

(** * The loudest-band scan on every spectrum, and what [loop] reports *)

Module LoopExtra.
Import Loop.

(** After [k] bands: either every sample so far is negative and nothing
    was stored, or the state holds the last band carrying the maximum. *)
Lemma loud_prefix_cases (spectrum : list Z) (k : nat) :
  ((forall i : nat, (i < k)%nat -> nth i spectrum 0 < 0)
   /\ loud_prefix spectrum k = loud_init)
  \/ (exists b : nat,
        (b < k)%nat
        /\ 0 <= nth b spectrum 0
        /\ loud_prefix spectrum k
           = {| loudestSample := nth b spectrum 0;
                freqLow := bandLow b; freqHigh := bandHigh b |}
        /\ (forall i : nat, (i < k)%nat -> nth i spectrum 0 <= nth b spectrum 0)
        /\ (forall i : nat, (b < i < k)%nat ->
              nth i spectrum 0 < nth b spectrum 0)).
Proof.
  induction k as [|k IH].
  - left. split; [intros i Hi; lia | reflexivity].
  - unfold loud_prefix. rewrite for_upto_S. fold (loud_prefix spectrum k).
    unfold loud_body.
    destruct IH as [[Hneg Hst] | (b & Hb & Hpos & Hst & Hmax & Hafter)];
      rewrite Hst; cbn [loudestSample loud_init].
    + destruct (Z.geb_spec (nth k spectrum 0) 0) as [Hge|Hlt].
      * right. exists k.
        split; [lia|]. split; [lia|]. split; [reflexivity|]. split.
        -- intros i Hi. destruct (Nat.eq_dec i k) as [->|Hne]; [lia|].
           specialize (Hneg i ltac:(lia)). lia.
        -- intros i Hi. lia.
      * left. split; [|reflexivity].
        intros i Hi. destruct (Nat.eq_dec i k) as [->|Hne]; [exact Hlt|].
        apply Hneg. lia.
    + destruct (Z.geb_spec (nth k spectrum 0) (nth b spectrum 0)) as [Hge|Hlt].
      * right. exists k.
        split; [lia|]. split; [lia|]. split; [reflexivity|]. split.
        -- intros i Hi. destruct (Nat.eq_dec i k) as [->|Hne]; [lia|].
           specialize (Hmax i ltac:(lia)). lia.
        -- intros i Hi. lia.
      * right. exists b.
        split; [lia|]. split; [exact Hpos|]. split; [reflexivity|]. split.
        -- intros i Hi. destruct (Nat.eq_dec i k) as [->|Hne]; [lia|].
           apply Hmax. lia.
        -- intros i Hi. destruct (Nat.eq_dec i k) as [->|Hne]; [exact Hlt|].
           apply Hafter. lia.
Qed.

(** The same for the whole scan of 64 bands. *)
Lemma loudest_scan_cases (spectrum : list Z) :
  ((forall i : nat, (i < 64)%nat -> nth i spectrum 0 < 0)
   /\ loudest_scan spectrum = loud_init)
  \/ (exists b : nat,
        (b < 64)%nat
        /\ 0 <= nth b spectrum 0
        /\ loudest_scan spectrum
           = {| loudestSample := nth b spectrum 0;
                freqLow := bandLow b; freqHigh := bandHigh b |}
        /\ (forall i : nat, (i < 64)%nat -> nth i spectrum 0 <= nth b spectrum 0)
        /\ (forall i : nat, (b < i < 64)%nat ->
              nth i spectrum 0 < nth b spectrum 0)).
Proof. exact (loud_prefix_cases spectrum 64). Qed.

(** Every band's edges, stored in ints, lie in 0..4200 with the low edge
    strictly below the high edge; every band is 525/8 = 65.625 wide. *)
Lemma band_edges_checked :
  forallb (fun b =>
             (0 <=? float_to_int (bandLow b))
             && (float_to_int (bandLow b) <? float_to_int (bandHigh b))
             && (float_to_int (bandHigh b) <=? 4200)
             && Qeq_bool (bandHigh b - bandLow b) (525 # 8))
          (seq 0 64) = true.
Proof. vm_compute. reflexivity. Qed.

Lemma band_edges (b : nat) :
  (b < spectrumSize)%nat ->
  0 <= float_to_int (bandLow b) < float_to_int (bandHigh b)
  /\ float_to_int (bandHigh b) <= 4200
  /\ (bandHigh b - bandLow b == 525 # 8)%Q.
Proof.
  intros Hb.
  pose proof band_edges_checked as Hall.
  rewrite forallb_forall in Hall.
  specialize (Hall b). rewrite in_seq in Hall.
  change spectrumSize with 64%nat in Hb.
  specialize (Hall ltac:(lia)).
  rewrite !andb_true_iff in Hall.
  destruct Hall as [[[H0 Hlt] Hhi] Hw].
  apply Z.leb_le in H0. apply Z.ltb_lt in Hlt. apply Z.leb_le in Hhi.
  apply Qeq_bool_iff in Hw.
  repeat split; assumption.
Qed.

(** X8.  For every spectrum the scan ends in one of two ways: all 64
    samples are negative and the state is untouched (amplitude 0, both
    edges 0); or it holds the amplitude and edges of the highest-index
    band carrying the maximum, which is then not negative. *)
Theorem X8_loudest_scan_on_every_spectrum (spectrum : list Z) :
  ((forall i : nat, (i < 64)%nat -> nth i spectrum 0 < 0)
   /\ loudest_scan spectrum
      = {| loudestSample := 0; freqLow := 0%Q; freqHigh := 0%Q |})
  \/ (exists b : nat,
        (b < 64)%nat
        /\ 0 <= nth b spectrum 0
        /\ loudest_scan spectrum
           = {| loudestSample := nth b spectrum 0;
                freqLow := bandLow b; freqHigh := bandHigh b |}
        /\ (forall i : nat, (i < 64)%nat -> nth i spectrum 0 <= nth b spectrum 0)
        /\ (forall i : nat, (b < i < 64)%nat ->
              nth i spectrum 0 < nth b spectrum 0)).
Proof. exact (loudest_scan_cases spectrum). Qed.

(** X9.  One pass of [loop] reports nothing exactly when no analysis is
    available or no sample among the 64 exceeds the threshold 150000. *)
Theorem X9_report_only_above_threshold
    (available : bool) (tbl : Finder.table) (spectrum : list Z) :
  Sketch.loop available tbl spectrum = None
  <-> available = false
      \/ forall i : nat, (i < 64)%nat -> nth i spectrum 0 <= threshold.
Proof.
  unfold Sketch.loop, loop_report.
  destruct available.
  - destruct (loudest_scan_cases spectrum)
      as [[Hneg Hst] | (b & Hb & _ & Hst & Hmax & _)]; rewrite Hst;
      cbn [loudestSample loud_init].
    + split; [|reflexivity].
      intros _. right. intros i Hi. specialize (Hneg i Hi).
      unfold threshold. lia.
    + destruct (Z.gtb_spec (nth b spectrum 0) threshold) as [Hgt|Hle].
      * split; [discriminate|].
        intros [Hf|Hall]; [discriminate|].
        specialize (Hall b Hb). lia.
      * split; [|reflexivity].
        intros _. right. intros i Hi. specialize (Hmax i Hi). lia.
  - split; [intros _; left; reflexivity | reflexivity].
Qed.

(** A report names the band it comes from. *)
Lemma report_band
    (tbl : Finder.table) (spectrum : list Z) (lo hi : Q) (amp note : Z) :
  Sketch.loop true tbl spectrum = Some (lo, hi, amp, note) ->
  exists b : nat,
    (b < 64)%nat
    /\ lo = bandLow b /\ hi = bandHigh b
    /\ amp = nth b spectrum 0 /\ threshold < amp
    /\ (forall i : nat, (i < 64)%nat -> nth i spectrum 0 <= amp)
    /\ (forall i : nat, (b < i < 64)%nat -> nth i spectrum 0 < amp)
    /\ note = fst (Finder.findMidiNoteFromPitches tbl
                     (float_to_int lo) (float_to_int hi))
    /\ 0 <= float_to_int lo < float_to_int hi
    /\ float_to_int hi <= 4200.
Proof.
  unfold Sketch.loop, loop_report.
  destruct (loudest_scan_cases spectrum)
    as [[_ Hst] | (b & Hb & _ & Hst & Hmax & Hafter)]; rewrite Hst;
    cbn [loudestSample freqLow freqHigh loud_init].
  - discriminate.
  - destruct (Z.gtb_spec (nth b spectrum 0) threshold) as [Hgt|Hle];
      [|discriminate].
    intros Hsome. injection Hsome as <- <- <- <-.
    destruct (band_edges b Hb) as (Hlo & Hhi & _).
    unfold call_finder, Finder.midiNote.
    exists b.
    split; [exact Hb|]. split; [reflexivity|]. split; [reflexivity|].
    split; [reflexivity|]. split; [lia|]. split; [exact Hmax|].
    split; [exact Hafter|]. split; [reflexivity|].
    split; [exact Hlo | exact Hhi].
Qed.

(** X10.  Whatever [loop] reports comes from one band [b]: its amplitude
    is that band's sample, above the threshold and maximal, with every
    later band strictly quieter; the edges are [b]'s; the note is the
    finder's answer for the edges stored in ints, and these satisfy
    0 <= lowPitch < highPitch <= 4200. *)
Theorem X10_report_comes_from_the_last_loudest_band
    (tbl : Finder.table) (spectrum : list Z) (lo hi : Q) (amp note : Z) :
  Sketch.loop true tbl spectrum = Some (lo, hi, amp, note) ->
  exists b : nat,
    (b < 64)%nat
    /\ lo = bandLow b /\ hi = bandHigh b
    /\ amp = nth b spectrum 0 /\ threshold < amp
    /\ (forall i : nat, (i < 64)%nat -> nth i spectrum 0 <= amp)
    /\ (forall i : nat, (b < i < 64)%nat -> nth i spectrum 0 < amp)
    /\ note = fst (Finder.findMidiNoteFromPitches tbl
                     (float_to_int lo) (float_to_int hi))
    /\ 0 <= float_to_int lo < float_to_int hi
    /\ float_to_int hi <= 4200.
Proof. exact (report_band tbl spectrum lo hi amp note). Qed.

Lemma X10_report_witness :
  exists b : nat,
    (b < 64)%nat /\ bandLow 10 = bandLow b /\ 200000 = nth b Tables.tiedSpectrum 0.
Proof.
  destruct (X10_report_comes_from_the_last_loudest_band
              Tables.stepTable Tables.tiedSpectrum
              (bandLow 10) (bandHigh 10) 200000 7)
    as (b & Hb & Hlo & _ & Hamp & _).
  - vm_compute. reflexivity.
  - exists b. split; [exact Hb|]. split; [exact Hlo | exact Hamp].
Defined.

(** An index recorded at iteration 0 keeps the note off -1. *)
Lemma first_recorded_gives_index (tbl : Finder.table) (lowPitch highPitch : Z) :
  Finder.diffAt tbl lowPitch 0 < Finder.initialDiff ->
  0 <= fst (Finder.findMidiNoteFromPitches tbl lowPitch highPitch) <= 126.
Proof.
  intros H0. cbn [Finder.findMidiNoteFromPitches fst].
  destruct (FinderFacts.desired_last_recorded tbl lowPitch highPitch
              Finder.noteCount) as [[_ Hnone] | (x & Hx & Hd & _)].
  - specialize (Hnone 0%nat ltac:(unfold Finder.noteCount; lia)).
    unfold Finder.recorded, Finder.prevDiff in Hnone.
    apply Z.ltb_ge in Hnone. lia.
  - rewrite Hd. unfold Finder.noteCount in Hx. lia.
Qed.

(** X11.  With a table whose first entry lies in [0, 32000), a report of
    [loop] never carries the error value -1: the note is in 0..126. *)
Theorem X11_reported_note_is_an_index
    (tbl : Finder.table) (spectrum : list Z) (lo hi : Q) (amp note : Z) :
  (0 <= Finder.pitchAt tbl 0)%Q ->
  (Finder.pitchAt tbl 0 < 32000)%Q ->
  Sketch.loop true tbl spectrum = Some (lo, hi, amp, note) ->
  0 <= note <= 126.
Proof.
  intros Hlow Hhigh Hrep.
  destruct (report_band tbl spectrum lo hi amp note Hrep)
    as (b & _ & _ & _ & _ & _ & _ & _ & Hnote & Hlo & Hhi).
  rewrite Hnote. apply first_recorded_gives_index.
  rewrite FinderFacts.diffAt_floor_distance.
  rewrite FinderMore.distance_of_int_exact by lia.
  unfold Finder.initialDiff, Finder.distance.
  assert (H0 : (0 <= int_to_float (float_to_int lo))%Q).
  { unfold int_to_float. change 0%Q with (inject_Z 0).
    rewrite <- Zle_Qle. lia. }
  assert (H1 : (int_to_float (float_to_int lo) <= 4200)%Q).
  { unfold int_to_float. change 4200%Q with (inject_Z 4200).
    rewrite <- Zle_Qle. lia. }
  set (L := int_to_float (float_to_int lo)) in *.
  set (t0 := Finder.pitchAt tbl 0) in *.
  destruct (Qlt_le_dec L t0) as [Hbelow|Habove].
  - (* the entry is above the bound: the difference is at most the entry *)
    apply Z.le_lt_trans with (Qfloor (Binary32.round32 t0)).
    + apply FinderFacts.stored_mono. rewrite Qabs_neg by lra. lra.
    + unfold t0. rewrite (FinderFacts.pitchAt_fixed tbl 0). fold t0.
      rewrite Zlt_Qlt.
      apply Qle_lt_trans with t0; [apply FinderFacts.inject_floor_le|].
      exact Hhigh.
  - (* the entry is at or below the bound, which is at most 4200 *)
    apply Z.le_lt_trans with (Qfloor (Binary32.round32 4200)).
    + apply FinderFacts.stored_mono. rewrite Qabs_pos by lra. lra.
    + vm_compute. reflexivity.
Qed.

Lemma X11_reported_note_witness : 0 <= 7 <= 126.
Proof.
  apply (X11_reported_note_is_an_index Tables.stepTable Tables.tiedSpectrum
           (bandLow 10) (bandHigh 10) 200000 7).
  - vm_compute. discriminate.
  - vm_compute. reflexivity.
  - vm_compute. reflexivity.
Defined.

End LoopExtra.

(** * [setup] *)

Module SetupExtra.
Import Stdlib.Strings.String.
Import Loop Sketch.

(** A loop that appends one item per iteration builds the mapped range. *)
Lemma for_upto_append {A : Type} (f : nat -> A) (n : nat) :
  for_upto n (fun b out => out ++ [f b]) [] = map f (seq 0 n).
Proof.
  induction n as [|n IH].
  - reflexivity.
  - cbn [for_upto]. rewrite IH, seq_S, map_app. reflexivity.
Qed.

Lemma bandHigh_is_next_bandLow (b : nat) : bandHigh b = bandLow (S b).
Proof.
  unfold bandHigh, bandLow. rewrite Nat2Z.inj_succ. reflexivity.
Qed.

Lemma band_width (b : nat) : (bandHigh b - bandLow b == 525 # 8)%Q.
Proof.
  unfold bandHigh, bandLow, int_to_float, sampleRate, fftSize.
  rewrite inject_Z_plus.
  change (inject_Z 1) with 1%Q. change (inject_Z 8400) with 8400%Q.
  change (inject_Z 128) with 128%Q.
  field.
Qed.

(** X13.  When [setup] returns it has printed the heading, one line per
    band for the 64 bands in order, and an empty line.  The bands tile the
    range from 0 to 4200 Hz, half the sample rate: the first starts at 0,
    each ends where the next starts, each is 525/8 = 65.625 Hz wide, and
    the last ends at 4200. *)
Theorem X13_setup_prints_bands_tiling_0_to_4200 :
  setup true true true
  = Returns (Message "Frequency bands: "%string
             :: map (fun b => BandLine (bandLow b) (bandHigh b)) (seq 0 64)
             ++ [BlankLine])
  /\ (bandLow 0 == 0)%Q
  /\ (forall b : nat, bandHigh b = bandLow (S b))
  /\ (forall b : nat, (bandHigh b - bandLow b == 525 # 8)%Q)
  /\ (bandHigh 63 == int_to_float sampleRate / 2)%Q
  /\ (bandHigh 63 == 4200)%Q.
Proof.
  split.
  - cbn [setup negb]. unfold print_bands.
    rewrite for_upto_append. reflexivity.
  - split; [reflexivity|].
    split; [exact bandHigh_is_next_bandLow|].
    split; [exact band_width|].
    split; reflexivity.
Qed.

End SetupExtra.
